(** * aila2: the patch overlay and the derived views of [src/app.js]

    A shallow embedding of the data-handling functions of the alignment
    viewer: the patch store ([getPatchKey], [getEntryWithPatch],
    [hasPatched], [savePatch]), the word classifier ([getWordStatus]), the
    sidebar views ([getFilteredGlossary], [getFilteredRules]), the
    morpheme resolver ([getMorphemeEntries]), the alignment filter
    ([filterAlignments]), the gloss of a word ([getWordGloss], and its
    shortening in [TargetWord]), [isDataLoaded] and [reset].

    Left out: [loadPatches] and [handleFileUpload] (JSON parsing and file
    reading belong to the runtime), [selectWord] (it compares words by
    object identity) and the components, which only render.

    Modelling conventions.
    - A JavaScript record (glossary entry, rule, morpheme, patch) is a finite
      map from field names to text, [gmap string string]; reading a field
      that is absent gives [None], the model of [undefined].  Field values
      are text, as in the documents the viewer loads.  A stored patch is
      such a record too, so a patch found in the store is always truthy.
    - The reactive [state] object is the record [State], passed explicitly.
    - A [TypeError] raised by the runtime (calling a method of [undefined],
      destructuring [null]) is the [TypeError] result of the monad [result].
    - [String.prototype.toLowerCase] and [String.prototype.localeCompare]
      belong to the runtime and depend on Unicode tables and on the locale:
      they are parameters of the development ([Section Views]).  An instance
      on ASCII text is given for evaluation on concrete inputs. *)

From Stdlib Require Import ZArith List String Ascii Lia.
From Stdlib Require Import Sorting.Sorted Sorting.Permutation.
From stdpp Require Import base option list gmap strings fin_maps.

Local Open Scope string_scope.
Local Open Scope Z_scope.

(** ** Values, records and the error monad *)

(** A record with text fields. *)
Abbreviation obj := (gmap string string).

(** Truthiness of a field read: [undefined] and the empty text are falsy. *)
Definition truthy (v : option string) : bool :=
  match v with
  | Some s => negb (String.eqb s "")
  | None => false
  end.

(** Interpolation of a field read inside a template literal. *)
Definition toStr (v : option string) : string :=
  match v with
  | Some s => s
  | None => "undefined"
  end.

(** [v || ''] on a field read. *)
Definition orEmpty (v : option string) : string :=
  if truthy v then toStr v else "".

Inductive result (A : Type) : Type :=
| Ok (a : A)
| TypeError.
Arguments Ok {A} a.
Arguments TypeError {A}.

(** The error monad, with stdpp's notation [x ← r; k]. *)
#[global] Instance result_ret : MRet result := fun A a => Ok a.
#[global] Instance result_bind : MBind result := fun A B k r =>
  match r with
  | Ok a => k a
  | TypeError => TypeError
  end.

(** Calling a method of a field read: a [TypeError] on [undefined]. *)
Definition method {A : Type} (v : option string) (f : string -> A) : result A :=
  match v with
  | Some s => Ok (f s)
  | None => TypeError
  end.

(** [Array.prototype.filter] with a callback that may throw. *)
Fixpoint filterR {A : Type} (f : A -> result bool) (l : list A) : result (list A) :=
  match l with
  | [] => Ok []
  | x :: l' =>
      b ← f x;
      r ← filterR f l';
      Ok (if (b : bool) then x :: r else r)
  end.

(** [Array.prototype.map] with a callback that may throw. *)
Fixpoint mapR {A B : Type} (f : A -> result B) (l : list A) : result (list B) :=
  match l with
  | [] => Ok []
  | x :: l' =>
      y ← f x;
      r ← mapR f l';
      Ok (y :: r)
  end.

(** [Array.prototype.sort] with a comparator that may throw, as a stable
    insertion sort: [insertBy cmp x l] puts [x] in front of the first
    element [y] of [l] with [cmp x y <= 0].  For a consistent comparator
    every stable sort gives this result; the order in which an engine calls
    the comparator, hence which call throws first, is its own. *)
Fixpoint insertBy {A : Type} (cmp : A -> A -> result Z) (x : A) (l : list A)
  : result (list A) :=
  match l with
  | [] => Ok [x]
  | y :: l' =>
      c ← cmp x y;
      if (c : Z) <=? 0 then Ok (x :: y :: l')
      else r ← insertBy cmp x l'; Ok (y :: r)
  end.

Fixpoint sortBy {A : Type} (cmp : A -> A -> result Z) (l : list A) : result (list A) :=
  match l with
  | [] => Ok []
  | x :: l' => r ← sortBy cmp l'; insertBy cmp x r
  end.

(** [String.prototype.includes]: [includes s sub] is [s.includes(sub)]. *)
Fixpoint includes (s sub : string) : bool :=
  if String.prefix sub s then true
  else match s with
       | EmptyString => false
       | String _ s' => includes s' sub
       end.

(** ** Documents and state *)

Record Word := { word : string; morphemes : list obj }.

Module GlossaryDocument.
Record t := { entries : list obj }.
End GlossaryDocument.

Module RuleDocument.
Record t := { rules : list obj }.
End RuleDocument.

(** The fields of [state] that the functions below read or write, and
    [storage], the values handed to [localStorage.setItem] by [savePatches],
    most recent first. *)
Record State := {
  glossary : option GlossaryDocument.t;
  rules : option RuleDocument.t;
  sidebarSearch : string;
  selectedWord : option Word;
  editingEntry : option (string * obj);
  patches : gmap string (gmap string string);
  storage : list (gmap string (gmap string string))
}.

(** ** Patch storage *)

(** [savePatches] (lines 12-14). *)
Definition savePatches (p : gmap string (gmap string string)) (st : State) : State :=
  {| glossary := glossary st; rules := rules st;
     sidebarSearch := sidebarSearch st; selectedWord := selectedWord st;
     editingEntry := editingEntry st; patches := patches st;
     storage := p :: storage st |}.

(** [getPatchKey] (line 16): the template literal [`${type}:${idOrForm}`]. *)
Definition getPatchKey (type : string) (idOrForm : option string) : string :=
  type +:+ ":" +:+ toStr idOrForm.

(** [type === 'unknown' ? entry.form : entry.id], written out in both
    [getEntryWithPatch] and [savePatch]: unknown entries use [form] as
    identifier, others use [id]. *)
Definition identifierOf (type : string) (entry : obj) : option string :=
  if String.eqb type "unknown" then entry !! "form" else entry !! "id".

(** [getEntryWithPatch] (lines 18-24): [patch ? { ...entry, ...patch } : entry];
    in the spread the fields of [patch] win, as in the left-biased union. *)
Definition getEntryWithPatch (st : State) (type : string) (entry : obj) : obj :=
  let identifier := identifierOf type entry in
  let key := getPatchKey type identifier in
  match patches st !! key with
  | Some patch => patch ∪ entry
  | None => entry
  end.

(** [hasPatched] (lines 26-28): [!!state.patches[key]]. *)
Definition hasPatched (st : State) (type : string) (idOrForm : option string) : bool :=
  match patches st !! getPatchKey type idOrForm with
  | Some _ => true
  | None => false
  end.

(** ** Word status *)

(** [getWordStatus] (lines 62-80). *)
Definition getWordStatus (st : State) (w : Word) : string :=
  let unknownMorphemes :=
    List.filter (fun m : obj => bool_decide (m !! "type" = Some "unknown")) (morphemes w) in
  let knownMorphemes :=
    List.filter (fun m : obj => negb (bool_decide (m !! "type" = Some "unknown"))) (morphemes w) in
  let unpatchedUnknowns :=
    List.filter (fun m : obj =>
      let patch := getEntryWithPatch st "unknown" m in
      negb (truthy (patch !! "gloss")) || bool_decide (patch !! "gloss" = m !! "gloss"))
      unknownMorphemes in
  let hasUnpatched := Nat.ltb 0 (length unpatchedUnknowns) in
  let hasPatched := Nat.ltb (length unpatchedUnknowns) (length unknownMorphemes) in
  let hasKnown := Nat.ltb 0 (length knownMorphemes) in
  if hasUnpatched && (hasKnown || hasPatched) then "mixed"
  else if hasUnpatched then "unknown"
  else if hasPatched then "patched"
  else "known".

(** ** Resolved morphemes *)

(** The objects built by [getMorphemeEntries]:
    [{ type, entry, originalEntry, morpheme }], the middle two absent in
    the [unknown] case. *)
Record MorphemeEntry := {
  me_type : string;
  me_entry : option obj;
  me_originalEntry : option obj;
  me_morpheme : obj
}.

(** [entries.find(e => e.id === m.source_id)]. *)
Definition findById (l : list obj) (id : option string) : option obj :=
  List.find (fun e : obj => bool_decide (e !! "id" = id)) l.

(** The callback of [word.morphemes.map] in [getMorphemeEntries]; reading
    [state.glossary.entries] or [state.rules.rules] of a document that is
    not loaded is a [TypeError]. *)
Definition morphemeEntry (st : State) (m : obj) : result MorphemeEntry :=
  if bool_decide (m !! "source_type" = Some "glossary") then
    match glossary st with
    | None => TypeError
    | Some g =>
        match findById (GlossaryDocument.entries g) (m !! "source_id") with
        | Some entry =>
            let patched := getEntryWithPatch st "glossary" entry in
            Ok {| me_type := "glossary"; me_entry := Some patched;
                  me_originalEntry := Some entry; me_morpheme := m |}
        | None =>
            Ok {| me_type := "unknown"; me_entry := None;
                  me_originalEntry := None; me_morpheme := m |}
        end
    end
  else if bool_decide (m !! "source_type" = Some "rule") then
    match rules st with
    | None => TypeError
    | Some r =>
        match findById (RuleDocument.rules r) (m !! "source_id") with
        | Some rule =>
            let patched := getEntryWithPatch st "rule" rule in
            Ok {| me_type := "rule"; me_entry := Some patched;
                  me_originalEntry := Some rule; me_morpheme := m |}
        | None =>
            Ok {| me_type := "unknown"; me_entry := None;
                  me_originalEntry := None; me_morpheme := m |}
        end
    end
  else
    Ok {| me_type := "unknown"; me_entry := None;
          me_originalEntry := None; me_morpheme := m |}.

(** [getMorphemeEntries] (lines 174-195). *)
Definition getMorphemeEntries (st : State) (w : option Word)
  : result (list MorphemeEntry) :=
  match w with
  | None => Ok []
  | Some w => mapR (morphemeEntry st) (morphemes w)
  end.

(** ** The edit modal *)

(** [openEditModal] and [closeModal] (lines 233-239). *)
Definition openEditModal (type : string) (entry : obj) (st : State) : State :=
  {| glossary := glossary st; rules := rules st;
     sidebarSearch := sidebarSearch st; selectedWord := selectedWord st;
     editingEntry := Some (type, entry); patches := patches st;
     storage := storage st |}.

Definition closeModal (st : State) : State :=
  {| glossary := glossary st; rules := rules st;
     sidebarSearch := sidebarSearch st; selectedWord := selectedWord st;
     editingEntry := None; patches := patches st;
     storage := storage st |}.

(** The assignment [state.patches = ...]. *)
Definition setPatches (p : gmap string (gmap string string)) (st : State) : State :=
  {| glossary := glossary st; rules := rules st;
     sidebarSearch := sidebarSearch st; selectedWord := selectedWord st;
     editingEntry := editingEntry st; patches := p;
     storage := storage st |}.

(** The loop over [modalEl.querySelectorAll('[data-field]')]: the inputs
    of the modal in document order, each a field name and its value. *)
Definition collectPatch (entry : obj) (inputs : list (string * string)) : gmap string string :=
  fold_left
    (fun (patch : gmap string string) (input : string * string) =>
       let field := fst input in
       let value := snd input in
       if bool_decide (value <> orEmpty (entry !! field))
       then <[field := value]> patch
       else patch)
    inputs ∅.

(** [savePatch] (lines 241-261).  Destructuring [state.editingEntry] when
    no entry is being edited is a [TypeError]; [{ ...state.patches[key],
    ...patch }] spreads nothing when the key has no patch yet. *)
Definition savePatch (st : State) (modalEl : list (string * string)) : result State :=
  match editingEntry st with
  | None => TypeError
  | Some (type, entry) =>
      let identifier := identifierOf type entry in
      let key := getPatchKey type identifier in
      let patch := collectPatch entry modalEl in
      let st :=
        if Nat.ltb 0 (size patch) then
          let st := setPatches
            (<[key := patch ∪ default ∅ (patches st !! key)]> (patches st)) st in
          savePatches (patches st) st
        else st in
      Ok (closeModal st)
  end.

(** ** The sidebar views *)

Section Views.

Variable toLowerCase : string -> string.
Variable localeCompare : string -> string -> Z.

(** The comparator [(a, b) => a.form.localeCompare(b.form)]: the
    receiver must be a string, the argument is converted to one. *)
Definition compareForm (a b : obj) : result Z :=
  method (a !! "form") (fun form => localeCompare form (toStr (b !! "form"))).

(** The ids of the selected word's morphemes of one source type. *)
Definition sourceIdsOf (source_type : string) (selected : Word) : list (option string) :=
  map (fun m : obj => m !! "source_id")
    (List.filter (fun m : obj => bool_decide (m !! "source_type" = Some source_type))
       (morphemes selected)).

(** The block [if (selected) { ... }] of both views: the collection is
    filtered only when the word has morphemes of the source type. *)
Definition scopeTo (source_type : string) (selected : option Word) (entries : list obj)
  : list obj :=
  match selected with
  | Some w =>
      let sourceIds := sourceIdsOf source_type w in
      if Nat.ltb 0 (length sourceIds)
      then List.filter (fun e : obj => bool_decide (e !! "id" ∈ sourceIds)) entries
      else entries
  | None => entries
  end.

(** The callback of the search filter of [getFilteredGlossary]. *)
Definition glossaryMatch (st : State) (search : string) (e : obj) : result bool :=
  let patched := getEntryWithPatch st "glossary" e in
  form ← method (patched !! "form") toLowerCase;
  if includes form search then Ok true
  else gloss ← method (patched !! "gloss") toLowerCase; Ok (includes gloss search).

(** [getFilteredGlossary] (lines 96-127). *)
Definition getFilteredGlossary (st : State) : result (list obj) :=
  match glossary st with
  | None => Ok []
  | Some g =>
      let search := toLowerCase (sidebarSearch st) in
      let selected := selectedWord st in
      let entries := GlossaryDocument.entries g in
      let entries := scopeTo "glossary" selected entries in
      entries ← (if truthy (Some search)
                 then filterR (glossaryMatch st search) entries
                 else Ok entries);
      entries ← sortBy compareForm entries;
      Ok (take 50 entries)
  end.

(** The callback of the search filter of [getFilteredRules]. *)
Definition ruleMatch (st : State) (search : string) (r : obj) : result bool :=
  let patched := getEntryWithPatch st "rule" r in
  form ← method (patched !! "form") toLowerCase;
  if includes form search then Ok true
  else
    gloss ← method (patched !! "gloss") toLowerCase;
    if includes gloss search then Ok true
    else
      description ← method (patched !! "description") toLowerCase;
      Ok (includes description search).

(** [getFilteredRules] (lines 129-159). *)
Definition getFilteredRules (st : State) : result (list obj) :=
  match rules st with
  | None => Ok []
  | Some r =>
      let search := toLowerCase (sidebarSearch st) in
      let selected := selectedWord st in
      let rules := RuleDocument.rules r in
      let rules := scopeTo "rule" selected rules in
      rules ← (if truthy (Some search)
               then filterR (ruleMatch st search) rules
               else Ok rules);
      sortBy compareForm rules
  end.

End Views.

(** ** A runtime instance on ASCII text

    Lower-casing of the letters [A]-[Z] and comparison by code unit; on
    texts of lower-case ASCII letters the latter orders as [localeCompare]
    does. *)

Definition asciiLower (c : ascii) : ascii :=
  let n := nat_of_ascii c in
  if Nat.leb 65 n && Nat.leb n 90 then ascii_of_nat (n + 32) else c.

Fixpoint asciiToLowerCase (s : string) : string :=
  match s with
  | EmptyString => EmptyString
  | String c s' => String (asciiLower c) (asciiToLowerCase s')
  end.

Definition ordinalCompare (a b : string) : Z :=
  match String.compare a b with
  | Eq => 0
  | Lt => -1
  | Gt => 1
  end.

(** ** Records and states used in the examples *)

Definition mkObj (fields : list (string * string)) : obj := list_to_map fields.

Definition mkState (g : option GlossaryDocument.t) (r : option RuleDocument.t)
    (search : string) (selected : option Word)
    (p : gmap string (gmap string string)) : State :=
  {| glossary := g; rules := r; sidebarSearch := search; selectedWord := selected;
     editingEntry := None; patches := p; storage := [] |}.

(** The glossary entry and the patch of the first scenario. *)
Definition entry_g1 : obj :=
  mkObj [("id", "g1"); ("form", "ama"); ("gloss", "love"); ("pos", "v")].

Definition patch_g1 : gmap string string := mkObj [("gloss", "love (intr.)")].

Definition st_g1 : State :=
  mkState None None "" None {[ "glossary:g1" := patch_g1 ]}.

(** Two unknown morphemes, the first patched into the form of the second. *)
Definition morph_a : obj := mkObj [("form", "a"); ("gloss", "?"); ("type", "unknown")].

Definition st_rename : State :=
  mkState None None "" None
    (<["unknown:a" := mkObj [("form", "b")]]>
       {[ "unknown:b" := mkObj [("gloss", "G")] ]}).

(** A store holding an empty patch, as a persisted store may. *)
Definition st_empty_patch : State :=
  mkState None None "" None {[ "glossary:g1" := ∅ ]}.

(** The word of the second scenario. *)
Definition morph_ama : obj :=
  mkObj [("form", "ama"); ("gloss", "love"); ("type", "known");
         ("source_type", "glossary"); ("source_id", "g1")].
Definition morph_di : obj := mkObj [("form", "di"); ("gloss", "?"); ("type", "unknown")].
Definition word_di : Word := {| word := "di"; morphemes := [morph_di] |}.
Definition word_amadi : Word := {| word := "amadi"; morphemes := [morph_ama; morph_di] |}.
Definition st_none : State := mkState None None "" None ∅.
Definition st_past : State :=
  mkState None None "" None {[ "unknown:di" := mkObj [("gloss", "PAST")] ]}.

(** ** The spec's reading of the word status *)

Definition isUnknown (m : obj) : Prop := m !! "type" = Some "unknown".

(** The unknown-kind patch yields a non-empty gloss that differs from the
    morpheme's own gloss. *)
Definition resolvedUnknown (st : State) (m : obj) : Prop :=
  exists g, getEntryWithPatch st "unknown" m !! "gloss" = Some g /\
            g <> "" /\ m !! "gloss" <> Some g.

Definition hasUnresolvedUnknown (st : State) (w : Word) : Prop :=
  exists m, In m (morphemes w) /\ isUnknown m /\ ~ resolvedUnknown st m.
Definition hasResolvedUnknown (st : State) (w : Word) : Prop :=
  exists m, In m (morphemes w) /\ isUnknown m /\ resolvedUnknown st m.
Definition hasKnown (w : Word) : Prop :=
  exists m, In m (morphemes w) /\ ~ isUnknown m.

(** The two tests of [getWordStatus]. *)
Definition isUnknownb (m : obj) : bool := bool_decide (m !! "type" = Some "unknown").
Definition unpatchedb (st : State) (m : obj) : bool :=
  negb (truthy (getEntryWithPatch st "unknown" m !! "gloss"))
  || bool_decide (getEntryWithPatch st "unknown" m !! "gloss" = m !! "gloss").

(** The edit submitted through the inputs changes the field [f] of the
    original record to [v]. *)
Definition retained (entry : obj) (inputs : list (string * string)) (f v : string) : Prop :=
  In (f, v) inputs /\ v <> orEmpty (entry !! f).

(** No stored patch is empty. *)
Definition noEmptyPatch (st : State) : Prop :=
  forall k p, patches st !! k = Some p -> p <> ∅.

(** ** The views, read as the spec reads them

    The pure stable insertion sort that [sortBy] computes when the
    comparator does not throw, the order it sorts by, and the tests of the
    scope and of the query as predicates on one entry. *)

Fixpoint insertPure {A : Type} (c : A -> A -> Z) (x : A) (l : list A) : list A :=
  match l with
  | [] => [x]
  | y :: l' => if c x y <=? 0 then x :: y :: l' else y :: insertPure c x l'
  end.

Fixpoint sortPure {A : Type} (c : A -> A -> Z) (l : list A) : list A :=
  match l with
  | [] => []
  | x :: l' => insertPure c x (sortPure c l')
  end.

(** The scoping block as a filter of the collection by one test. *)
Definition inScopeb (ty : string) (selected : option Word) (e : obj) : bool :=
  match selected with
  | None => true
  | Some w =>
      negb (Nat.ltb 0 (length (sourceIdsOf ty w)))
      || bool_decide (e !! "id" ∈ sourceIdsOf ty w)
  end.

Section ViewSpec.

Variable toLowerCase : string -> string.
Variable localeCompare : string -> string -> Z.

(** Comparison of two records by their own (unpatched) [form]. *)
Definition byForm (a b : obj) : Z :=
  localeCompare (toStr (a !! "form")) (toStr (b !! "form")).

(** Comparison of two records by their effective (patched) [form]. *)
Definition byEffectiveForm (st : State) (type : string) (a b : obj) : Z :=
  localeCompare (toStr (getEntryWithPatch st type a !! "form"))
                (toStr (getEntryWithPatch st type b !! "form")).

(** The record's own id is one of those the selected word refers to by
    morphemes of the given source type. *)
Definition referencedBy (source_type : string) (w : Word) (e : obj) : Prop :=
  exists m, In m (morphemes w) /\ m !! "source_type" = Some source_type /\
            m !! "source_id" = e !! "id".

(** The effective value of one of the fields contains the query, case
    put aside. *)
Definition matchesQuery (fields : list string) (st : State) (type : string)
    (q : string) (e : obj) : Prop :=
  exists f s, In f fields /\ getEntryWithPatch st type e !! f = Some s /\
              includes (toLowerCase s) (toLowerCase q) = true.

(** The selected word, if any, has no morpheme of the source type, or
    refers to the record. *)
Definition inScope (source_type : string) (selected : option Word) (e : obj) : Prop :=
  match selected with
  | None => True
  | Some w =>
      (forall m, In m (morphemes w) -> m !! "source_type" <> Some source_type) \/
      referencedBy source_type w e
  end.

(** The query is empty, or matches. *)
Definition inQuery (fields : list string) (st : State) (type : string) (e : obj) : Prop :=
  toLowerCase (sidebarSearch st) = "" \/
  matchesQuery fields st type (sidebarSearch st) e.

(** The test of [glossaryMatch] on a record that has its fields. *)
Definition glossaryMatchb (st : State) (search : string) (e : obj) : bool :=
  let patched := getEntryWithPatch st "glossary" e in
  includes (toLowerCase (toStr (patched !! "form"))) search
  || includes (toLowerCase (toStr (patched !! "gloss"))) search.

(** The test that keeps an entry in the glossary view. *)
Definition keepGlossary (st : State) (e : obj) : bool :=
  inScopeb "glossary" (selectedWord st) e
  && (negb (truthy (Some (toLowerCase (sidebarSearch st))))
      || glossaryMatchb st (toLowerCase (sidebarSearch st)) e).

(** The test of [ruleMatch] on a record that has its fields. *)
Definition ruleMatchb (st : State) (search : string) (e : obj) : bool :=
  let patched := getEntryWithPatch st "rule" e in
  includes (toLowerCase (toStr (patched !! "form"))) search
  || includes (toLowerCase (toStr (patched !! "gloss"))) search
  || includes (toLowerCase (toStr (patched !! "description"))) search.

(** The test that keeps a rule in the rule view. *)
Definition keepRule (st : State) (e : obj) : bool :=
  inScopeb "rule" (selectedWord st) e
  && (negb (truthy (Some (toLowerCase (sidebarSearch st))))
      || ruleMatchb st (toLowerCase (sidebarSearch st)) e).

End ViewSpec.

(** ** States of the view examples *)

Definition entry_a : obj := mkObj [("id", "g1"); ("form", "a"); ("gloss", "x"); ("pos", "n")].
Definition entry_b : obj := mkObj [("id", "g2"); ("form", "b"); ("gloss", "y"); ("pos", "n")].

(** The entry [a] is patched into the form [c]. *)
Definition st_sorted : State :=
  mkState (Some {| GlossaryDocument.entries := [entry_a; entry_b] |})
          (Some {| RuleDocument.rules := [] |}) "" None
          {[ "glossary:g1" := mkObj [("form", "c")] ]}.

(** A selected word without a glossary morpheme. *)
Definition st_selected_di : State :=
  mkState (Some {| GlossaryDocument.entries := [entry_a; entry_b] |})
          (Some {| RuleDocument.rules := [] |}) ""
          (Some word_di) ∅.

(** A selected word whose morpheme refers to [g2], and a query. *)
Definition morph_b : obj :=
  mkObj [("form", "b"); ("gloss", "y"); ("type", "known");
         ("source_type", "glossary"); ("source_id", "g2")].
Definition word_b : Word := {| word := "b"; morphemes := [morph_b] |}.
Definition st_selected_b : State :=
  mkState (Some {| GlossaryDocument.entries := [entry_b; entry_a] |})
          (Some {| RuleDocument.rules := [] |}) "Y" (Some word_b) ∅.

(** A rule without description, and a query that neither its form nor its
    gloss contains. *)
Definition rule_r1 : obj :=
  mkObj [("id", "r1"); ("form", "lar"); ("gloss", "PL"); ("type", "suffix")].
Definition st_rule_nodesc : State :=
  mkState (Some {| GlossaryDocument.entries := [] |})
          (Some {| RuleDocument.rules := [rule_r1] |}) "q" None ∅.

(** A morpheme that refers to the rule [r99], which does not exist. *)
Definition morph_r99 : obj :=
  mkObj [("form", "x"); ("gloss", "X"); ("type", "known");
         ("source_type", "rule"); ("source_id", "r99")].
Definition word_b_r99 : Word := {| word := "bx"; morphemes := [morph_b; morph_r99] |}.
Definition st_docs : State :=
  mkState (Some {| GlossaryDocument.entries := [entry_a; entry_b] |})
          (Some {| RuleDocument.rules := [rule_r1] |}) "" None ∅.

(** ** The rest of the state: alignments and their filter

    [State] holds the fields that the functions above read; [AppState]
    adds the two that are left, [state.alignments] and [state.searchQuery].
    The fields of a line may be absent, as any field of a loaded document. *)

Module AlignmentLine.
Record t := {
  source_line : option string;
  target_line : option string;
  words : list Word
}.
End AlignmentLine.

Module AlignmentDocument.
Record t := { alignments : list AlignmentLine.t }.
End AlignmentDocument.

Record AppState := {
  core : State;
  alignments : option AlignmentDocument.t;
  searchQuery : string
}.

(** The objects [{ line, originalIndex }] of [filterAlignments]. *)
Record IndexedLine := {
  line : AlignmentLine.t;
  originalIndex : nat
}.

(** [.map((line, originalIndex) => ({ line, originalIndex }))], counting
    from [n]. *)
Fixpoint withIndexFrom (n : nat) (l : list AlignmentLine.t) : list IndexedLine :=
  match l with
  | [] => []
  | x :: l' => {| line := x; originalIndex := n |} :: withIndexFrom (S n) l'
  end.

(** [isDataLoaded] (line 60): [state.alignments && state.glossary &&
    state.rules], read as a condition. *)
Definition isDataLoaded (app : AppState) : bool :=
  match alignments app, glossary (core app), rules (core app) with
  | Some _, Some _, Some _ => true
  | _, _, _ => false
  end.

(** [reset] (lines 223-230): the documents, the two queries and the
    selection are cleared; [editingEntry] and [patches] are not assigned. *)
Definition reset (app : AppState) : AppState :=
  {| core := {| glossary := None; rules := None; sidebarSearch := "";
                selectedWord := None;
                editingEntry := editingEntry (core app);
                patches := patches (core app);
                storage := storage (core app) |};
     alignments := None;
     searchQuery := "" |}.

Section Alignments.

Variable toLowerCase : string -> string.

(** The callback of the filter of [filterAlignments]: with an empty query
    no field of the line is read. *)
Definition lineMatch (query : string) (il : IndexedLine) : result bool :=
  if negb (truthy (Some query)) then Ok true
  else
    source ← method (AlignmentLine.source_line (line il)) toLowerCase;
    if includes source query then Ok true
    else
      target ← method (AlignmentLine.target_line (line il)) toLowerCase;
      Ok (includes target query).

(** [filterAlignments] (lines 82-94). *)
Definition filterAlignments (app : AppState) : result (list IndexedLine) :=
  match alignments app with
  | None => Ok []
  | Some doc =>
      let query := toLowerCase (searchQuery app) in
      filterR (lineMatch query)
        (withIndexFrom 0 (AlignmentDocument.alignments doc))
  end.

(** The test of [lineMatch] on a line that has its two texts. *)
Definition lineMatchb (query : string) (il : IndexedLine) : bool :=
  negb (truthy (Some query))
  || includes (toLowerCase (toStr (AlignmentLine.source_line (line il)))) query
  || includes (toLowerCase (toStr (AlignmentLine.target_line (line il)))) query.

(** The query is empty, or the source line or the target line contains
    it, case put aside. *)
Definition lineMatches (q : string) (l : AlignmentLine.t) : Prop :=
  toLowerCase q = "" \/
  exists s, (AlignmentLine.source_line l = Some s \/ AlignmentLine.target_line l = Some s) /\
            includes (toLowerCase s) (toLowerCase q) = true.

End Alignments.

(** ** The gloss of a word *)

(** [Array.prototype.join]: an [undefined] element is the empty text. *)
Definition joinElem (v : option string) : string :=
  match v with
  | Some s => s
  | None => ""
  end.

Fixpoint join (sep : string) (l : list (option string)) : string :=
  match l with
  | [] => ""
  | x :: l' =>
      match l' with
      | [] => joinElem x
      | _ :: _ => joinElem x +:+ sep +:+ join sep l'
      end
  end.

(** The two branches of the callback of [getWordGloss] that look the
    morpheme up: [Some v] when the branch returns [patched.gloss], [None]
    when control falls through.  With [state.glossary?.entries] a document
    that is not loaded gives no entry. *)
Definition sourceGloss (st : State) (m : obj) : option (option string) :=
  if bool_decide (m !! "source_type" = Some "glossary") then
    match glossary st with
    | None => None
    | Some g =>
        match findById (GlossaryDocument.entries g) (m !! "source_id") with
        | Some entry =>
            let patched := getEntryWithPatch st "glossary" entry in
            Some (patched !! "gloss")
        | None => None
        end
    end
  else if bool_decide (m !! "source_type" = Some "rule") then
    match rules st with
    | None => None
    | Some r =>
        match findById (RuleDocument.rules r) (m !! "source_id") with
        | Some rule =>
            let patched := getEntryWithPatch st "rule" rule in
            Some (patched !! "gloss")
        | None => None
        end
    end
  else None.

(** The tail of the callback: the check for unknown morpheme patches. *)
Definition unknownGloss (st : State) (m : obj) : option string :=
  let unknownPatch := getEntryWithPatch st "unknown" m in
  if truthy (unknownPatch !! "gloss")
     && negb (bool_decide (unknownPatch !! "gloss" = m !! "gloss"))
  then unknownPatch !! "gloss"
  else m !! "gloss".

Definition morphemeGloss (st : State) (m : obj) : option string :=
  match sourceGloss st m with
  | Some gloss => gloss
  | None => unknownGloss st m
  end.

(** [getWordGloss] (lines 198-221). *)
Definition getWordGloss (st : State) (w : Word) : string :=
  join " + " (map (morphemeGloss st) (morphemes w)).

(** The gloss that goes with an object of [getMorphemeEntries]. *)
Definition entryGloss (st : State) (r : MorphemeEntry) : option string :=
  match me_entry r with
  | Some e => e !! "gloss"
  | None => unknownGloss st (me_morpheme r)
  end.

(** [shortGloss] in [TargetWord] (line 295):
    [gloss.length > 13 ? gloss.slice(0, 10) + '...' : gloss], a character
    of the model standing for one code unit. *)
Definition shortGloss (gloss : string) : string :=
  if Nat.ltb 13 (String.length gloss)
  then String.substring 0 10 gloss +:+ "..."
  else gloss.

(** ** Entity kinds *)

Definition isKind (type : string) : Prop :=
  type = "glossary" \/ type = "rule" \/ type = "unknown".

(** ** States of the further examples *)

Definition line_1 : AlignmentLine.t :=
  {| AlignmentLine.source_line := Some "I love";
     AlignmentLine.target_line := Some "amadi";
     AlignmentLine.words := [word_amadi] |}.
Definition line_2 : AlignmentLine.t :=
  {| AlignmentLine.source_line := Some "you";
     AlignmentLine.target_line := Some "b";
     AlignmentLine.words := [word_b] |}.
Definition line_3 : AlignmentLine.t :=
  {| AlignmentLine.source_line := Some "Beloved";
     AlignmentLine.target_line := Some "di";
     AlignmentLine.words := [word_di] |}.

Definition app_lines : AppState :=
  {| core := st_docs;
     alignments := Some {| AlignmentDocument.alignments := [line_1; line_2; line_3] |};
     searchQuery := "LOVE" |}.

(** Two complete rules, out of order, and no query. *)
Definition rule_a : obj :=
  mkObj [("id", "r1"); ("form", "a"); ("gloss", "A"); ("type", "suffix");
         ("description", "first")].
Definition rule_b : obj :=
  mkObj [("id", "r2"); ("form", "b"); ("gloss", "B"); ("type", "suffix");
         ("description", "second")].
Definition st_rules_ab : State :=
  mkState (Some {| GlossaryDocument.entries := [] |})
          (Some {| RuleDocument.rules := [rule_b; rule_a] |}) "" None ∅.

(** A glossary morpheme for [g1] and the store of the first scenario. *)
Definition st_docs_g1 : State :=
  mkState (Some {| GlossaryDocument.entries := [entry_g1] |})
          (Some {| RuleDocument.rules := [rule_r1] |}) "" None
          {[ "glossary:g1" := patch_g1 ]}.

(** * Theorems *)

(** ** The runtime functions on examples *)

Example includes_examples :
  includes "hello" "ell" = true /\ includes "hello" "" = true /\
  includes "" "a" = false /\ includes "hello" "hex" = false.
Proof. repeat split; reflexivity. Qed.

Example asciiToLowerCase_example : asciiToLowerCase "Love (Intr.)" = "love (intr.)".
Proof. reflexivity. Qed.

(** ** Lists *)

Lemma filter_nonempty_iff {A : Type} (f : A -> bool) (l : list A) :
  Nat.ltb 0 (length (List.filter f l)) = true <-> exists x, In x l /\ f x = true.
Proof.
  rewrite Nat.ltb_lt. split.
  - intros Hlen. destruct (List.filter f l) as [|x r] eqn:E; [simpl in Hlen; lia|].
    exists x. apply filter_In. rewrite E. now left.
  - intros (x & Hin & Hf).
    assert (Hx : In x (List.filter f l)) by (apply filter_In; auto).
    destruct (List.filter f l); [destruct Hx | simpl; lia].
Qed.

Lemma filter_length_le {A : Type} (g : A -> bool) (l : list A) :
  (length (List.filter g l) <= length l)%nat.
Proof. induction l as [|x l IH]; simpl; [lia|]. destruct (g x); simpl; lia. Qed.

Lemma filter_shrinks_iff {A : Type} (g : A -> bool) (l : list A) :
  Nat.ltb (length (List.filter g l)) (length l) = true <->
  exists x, In x l /\ g x = false.
Proof.
  rewrite Nat.ltb_lt. induction l as [|x l IH]; simpl.
  - split; [lia | intros (x & [] & _)].
  - pose proof (filter_length_le g l) as Hle.
    destruct (g x) eqn:Gx; simpl.
    + rewrite <- Nat.succ_lt_mono, IH. split.
      * intros (y & Hy & Gy). eauto.
      * intros (y & [-> | Hy] & Gy); [congruence | eauto].
    + split; [intros _; eauto | intros _; lia].
Qed.

(** ** The overlay *)

Lemma getEntryWithPatch_absent (st : State) (type : string) (entry : obj) :
  patches st !! getPatchKey type (identifierOf type entry) = None ->
  getEntryWithPatch st type entry = entry.
Proof. intros H. unfold getEntryWithPatch. now rewrite H. Qed.

Lemma getEntryWithPatch_present (st : State) (type : string) (entry : obj)
    (patch : gmap string string) :
  patches st !! getPatchKey type (identifierOf type entry) = Some patch ->
  getEntryWithPatch st type entry = patch ∪ entry.
Proof. intros H. unfold getEntryWithPatch. now rewrite H. Qed.

(** C1. [getEntryWithPatch] returns the base record itself when no patch
    is stored under the record's key.  When a patch is stored, the result is
    the overlay of the patch on the base record: a field of the patch has the
    patch's value, a field absent from the patch has the base record's value
    (or is absent when the base record lacks it too).  An empty patch gives
    back the base record. *)
Theorem getEntryWithPatch_overlay (st : State) (type : string) (entry : obj) :
  let key := getPatchKey type (identifierOf type entry) in
  (patches st !! key = None -> getEntryWithPatch st type entry = entry) /\
  (forall patch : gmap string string,
     patches st !! key = Some patch ->
     getEntryWithPatch st type entry = patch ∪ entry /\
     (forall f v, patch !! f = Some v ->
        getEntryWithPatch st type entry !! f = Some v) /\
     (forall f, patch !! f = None ->
        getEntryWithPatch st type entry !! f = entry !! f)) /\
  (patches st !! key = Some ∅ -> getEntryWithPatch st type entry = entry).
Proof.
  intros key. split; [apply getEntryWithPatch_absent|]. split.
  - intros patch Hp. rewrite (getEntryWithPatch_present _ _ _ _ Hp).
    split; [reflexivity|]. split.
    + intros f v Hf. now apply lookup_union_Some_l.
    + intros f Hf. now apply lookup_union_r.
  - intros Hp. rewrite (getEntryWithPatch_present _ _ _ _ Hp).
    apply (left_id_L ∅ (∪)).
Qed.

(** The first scenario: the patch [{gloss: "love (intr.)"}] stored under
    [glossary:g1] overrides the gloss of the entry and nothing else. *)
Lemma getEntryWithPatch_overlay_witness :
  getEntryWithPatch st_g1 "glossary" entry_g1 !! "gloss" = Some "love (intr.)" /\
  getEntryWithPatch st_g1 "glossary" entry_g1 !! "form" = Some "ama" /\
  getEntryWithPatch st_none "glossary" entry_g1 = entry_g1.
Proof.
  destruct (getEntryWithPatch_overlay st_g1 "glossary" entry_g1) as (_ & H & _).
  destruct (H patch_g1) as (_ & Hin & Hout); [vm_compute; reflexivity|].
  destruct (getEntryWithPatch_overlay st_none "glossary" entry_g1) as (Hnone & _).
  split; [apply Hin; vm_compute; reflexivity|].
  split; [rewrite Hout; vm_compute; reflexivity|].
  apply Hnone. vm_compute. reflexivity.
Defined.

(** C8, as the code has it: resolving twice is resolving once whenever the
    effective record has the patch key of the base record, which is so
    whenever the patch leaves the identifying field ([form] for unknown
    entries, [id] for the others) as it is. *)
Theorem getEntryWithPatch_idempotent (st : State) (type : string) (entry : obj) :
  getPatchKey type (identifierOf type (getEntryWithPatch st type entry)) =
    getPatchKey type (identifierOf type entry) ->
  getEntryWithPatch st type (getEntryWithPatch st type entry) =
    getEntryWithPatch st type entry.
Proof.
  intros Hkey.
  destruct (patches st !! getPatchKey type (identifierOf type entry)) as [p|] eqn:Hp.
  - rewrite (getEntryWithPatch_present _ _ _ _ Hp) in *.
    rewrite (getEntryWithPatch_present st type (p ∪ entry) p) by now rewrite Hkey.
    rewrite (assoc_L (∪)). now rewrite (idemp_L (∪)).
  - rewrite (getEntryWithPatch_absent _ _ _ Hp) in *.
    now apply getEntryWithPatch_absent.
Qed.

Lemma getEntryWithPatch_idempotent_witness :
  getEntryWithPatch st_g1 "glossary" (getEntryWithPatch st_g1 "glossary" entry_g1) =
    getEntryWithPatch st_g1 "glossary" entry_g1.
Proof.
  apply (getEntryWithPatch_idempotent st_g1 "glossary" entry_g1).
  vm_compute. reflexivity.
Defined.

(** C8 as stated fails: the patch of the unknown morpheme [a] renames it
    to [b], and resolving the renamed record picks up the patch stored for
    [b]. *)
Lemma getEntryWithPatch_not_idempotent :
  getEntryWithPatch st_rename "unknown" (getEntryWithPatch st_rename "unknown" morph_a)
    <> getEntryWithPatch st_rename "unknown" morph_a.
Proof.
  intros H. apply (f_equal (fun r : gmap string string => r !! "gloss")) in H.
  vm_compute in H. discriminate H.
Qed.

(** ** [hasPatched] *)

(** C10, as the code has it: [hasPatched] tells whether a patch is stored
    under the key, empty or not; on a store without empty patches this is
    the same as a non-empty patch being stored. *)
Theorem hasPatched_iff_stored (st : State) (type : string) (idOrForm : option string) :
  (hasPatched st type idOrForm = true <->
     exists p, patches st !! getPatchKey type idOrForm = Some p) /\
  (noEmptyPatch st ->
     (hasPatched st type idOrForm = true <->
        exists p, patches st !! getPatchKey type idOrForm = Some p /\ p <> ∅)).
Proof.
  unfold hasPatched. split.
  - destruct (patches st !! getPatchKey type idOrForm) as [p|].
    + split; eauto.
    + split; [discriminate | intros (p & Hp); discriminate].
  - intros Hne.
    destruct (patches st !! getPatchKey type idOrForm) as [p|] eqn:Hp.
    + split; [intros _; exists p; split; [reflexivity | now apply (Hne _ _ Hp)] | reflexivity].
    + split; [discriminate | intros (p & Hq & _); discriminate].
Qed.

Lemma noEmptyPatch_st_g1 : noEmptyPatch st_g1.
Proof.
  intros k p Hk. unfold st_g1, mkState in Hk. simpl in Hk.
  apply lookup_singleton_Some in Hk as [_ <-].
  intros H. apply (f_equal (fun m : gmap string string => m !! "gloss")) in H.
  vm_compute in H. discriminate H.
Qed.

Lemma hasPatched_iff_stored_witness :
  hasPatched st_g1 "glossary" (Some "g1") = true <->
    exists p, patches st_g1 !! getPatchKey "glossary" (Some "g1") = Some p /\ p <> ∅.
Proof.
  destruct (hasPatched_iff_stored st_g1 "glossary" (Some "g1")) as [_ H].
  exact (H noEmptyPatch_st_g1).
Defined.

(** C10 as stated fails on a store that holds an empty patch: the empty
    patch object is truthy. *)
Lemma hasPatched_empty_patch :
  hasPatched st_empty_patch "glossary" (Some "g1") = true /\
  patches st_empty_patch !! getPatchKey "glossary" (Some "g1") = Some ∅.
Proof. split; vm_compute; reflexivity. Qed.

(** ** [getWordStatus] *)

Lemma resolvedUnknown_iff (st : State) (m : obj) :
  negb (truthy (getEntryWithPatch st "unknown" m !! "gloss"))
  || bool_decide (getEntryWithPatch st "unknown" m !! "gloss" = m !! "gloss") = false
  <-> resolvedUnknown st m.
Proof.
  unfold resolvedUnknown.
  destruct (getEntryWithPatch st "unknown" m !! "gloss") as [g|]; simpl.
  - rewrite orb_false_iff, negb_false_iff, negb_true_iff, bool_decide_eq_false.
    rewrite String.eqb_neq. split.
    + intros [Hg Hne]. exists g. repeat split; congruence.
    + intros (g' & [= <-] & Hg & Hne). split; congruence.
  - split; [discriminate | intros (g & Hg & _); discriminate].
Qed.

Lemma hasUnpatched_iff (st : State) (w : Word) :
  Nat.ltb 0 (length (List.filter (unpatchedb st)
                       (List.filter isUnknownb (morphemes w)))) = true
  <-> hasUnresolvedUnknown st w.
Proof.
  rewrite filter_nonempty_iff. unfold hasUnresolvedUnknown, isUnknown. split.
  - intros (m & Hin & Hu). apply filter_In in Hin as [Hin Hk].
    apply bool_decide_eq_true in Hk. exists m. repeat split; auto.
    intros Hr. apply (proj2 (resolvedUnknown_iff st m)) in Hr.
    unfold unpatchedb in Hu. congruence.
  - intros (m & Hin & Hk & Hu). exists m. split.
    + apply filter_In. split; [assumption | now apply bool_decide_eq_true].
    + destruct (unpatchedb st m) eqn:E; [reflexivity|].
      exfalso. apply Hu. exact (proj1 (resolvedUnknown_iff st m) E).
Qed.

Lemma hasPatched_iff (st : State) (w : Word) :
  Nat.ltb (length (List.filter (unpatchedb st) (List.filter isUnknownb (morphemes w))))
          (length (List.filter isUnknownb (morphemes w))) = true
  <-> hasResolvedUnknown st w.
Proof.
  rewrite filter_shrinks_iff. unfold hasResolvedUnknown, isUnknown. split.
  - intros (m & Hin & Hu). apply filter_In in Hin as [Hin Hk].
    apply bool_decide_eq_true in Hk. exists m. repeat split; auto.
    exact (proj1 (resolvedUnknown_iff st m) Hu).
  - intros (m & Hin & Hk & Hu). exists m. split.
    + apply filter_In. split; [assumption | now apply bool_decide_eq_true].
    + exact (proj2 (resolvedUnknown_iff st m) Hu).
Qed.

Lemma hasKnown_iff (w : Word) :
  Nat.ltb 0 (length (List.filter (fun m => negb (isUnknownb m)) (morphemes w))) = true
  <-> hasKnown w.
Proof.
  rewrite filter_nonempty_iff. unfold hasKnown, isUnknown.
  split; intros (m & Hin & Hk); exists m; (split; [assumption|]).
  - apply negb_true_iff, bool_decide_eq_false in Hk. exact Hk.
  - now apply negb_true_iff, bool_decide_eq_false.
Qed.

(** C2. [getWordStatus] is [mixed] when an unresolved unknown morpheme
    coexists with a known or a resolved unknown one, otherwise [unknown]
    when some unknown morpheme is unresolved, otherwise [patched] when some
    unknown morpheme is resolved, otherwise [known]; it returns one of these
    four for every word and every patch store. *)
Theorem getWordStatus_classifies (st : State) (w : Word) :
  (hasUnresolvedUnknown st w /\ (hasKnown w \/ hasResolvedUnknown st w) ->
     getWordStatus st w = "mixed") /\
  (hasUnresolvedUnknown st w /\ ~ (hasKnown w \/ hasResolvedUnknown st w) ->
     getWordStatus st w = "unknown") /\
  (~ hasUnresolvedUnknown st w /\ hasResolvedUnknown st w ->
     getWordStatus st w = "patched") /\
  (~ hasUnresolvedUnknown st w /\ ~ hasResolvedUnknown st w ->
     getWordStatus st w = "known") /\
  In (getWordStatus st w) ["known"; "patched"; "unknown"; "mixed"].
Proof.
  pose proof (hasUnpatched_iff st w) as HU.
  pose proof (hasPatched_iff st w) as HP.
  pose proof (hasKnown_iff w) as HK.
  unfold getWordStatus. cbv zeta.
  destruct (Nat.ltb 0 (length (List.filter _ (List.filter _ (morphemes w))))) eqn:EU;
  destruct (Nat.ltb (length (List.filter _ (List.filter _ (morphemes w)))) _) eqn:EP;
  destruct (Nat.ltb 0 (length (List.filter (fun m : obj => negb _) (morphemes w)))) eqn:EK;
  simpl; repeat split; try tauto; intros; simpl; intuition (try congruence; try discriminate).
Qed.

Lemma hasUnresolvedUnknown_amadi : hasUnresolvedUnknown st_none word_amadi.
Proof.
  exists morph_di. split; [right; left; reflexivity|].
  split; [vm_compute; reflexivity|].
  intros (g & Hg & _ & Hne). vm_compute in Hg. apply Hne.
  injection Hg as <-. vm_compute. reflexivity.
Qed.

Lemma hasKnown_amadi : hasKnown word_amadi.
Proof.
  exists morph_ama. split; [left; reflexivity|].
  unfold isUnknown. vm_compute. discriminate.
Qed.

Lemma resolvedUnknown_di : resolvedUnknown st_past morph_di.
Proof.
  exists "PAST". split; [vm_compute; reflexivity|].
  split; [discriminate | vm_compute; discriminate].
Qed.

Lemma unknown_amadi_is_di (m : obj) :
  In m (morphemes word_amadi) -> isUnknown m -> m = morph_di.
Proof.
  intros [<- | [<- | []]] Hu; [|reflexivity].
  unfold isUnknown in Hu. vm_compute in Hu. discriminate Hu.
Qed.

(** The second scenario: a known morpheme next to an unresolved unknown
    one is [mixed]; once the unknown morpheme has a gloss patch the word is
    [patched]. *)
Lemma getWordStatus_classifies_witness :
  getWordStatus st_none word_amadi = "mixed" /\
  getWordStatus st_past word_amadi = "patched".
Proof.
  split.
  - destruct (getWordStatus_classifies st_none word_amadi) as (H & _).
    apply H. split; [exact hasUnresolvedUnknown_amadi | left; exact hasKnown_amadi].
  - destruct (getWordStatus_classifies st_past word_amadi) as (_ & _ & H & _).
    apply H. split.
    + intros (m & Hin & Hu & Hr). apply Hr.
      rewrite (unknown_amadi_is_di m Hin Hu). exact resolvedUnknown_di.
    + exists morph_di. split; [right; left; reflexivity|].
      split; [vm_compute; reflexivity | exact resolvedUnknown_di].
Defined.

(** ** [savePatch] *)

Lemma collect_fold_sound (entry : obj) (inputs : list (string * string))
    (acc : gmap string string) (f v : string) :
  fold_left
    (fun (patch : gmap string string) (input : string * string) =>
       if bool_decide (snd input <> orEmpty (entry !! fst input))
       then <[fst input := snd input]> patch
       else patch) inputs acc !! f = Some v ->
  acc !! f = Some v \/ (In (f, v) inputs /\ v <> orEmpty (entry !! f)).
Proof.
  revert acc. induction inputs as [|[g u] inputs IH]; intros acc H; simpl in H.
  - now left.
  - apply IH in H as [H | [Hin Hne]]; [|right; split; [now right | exact Hne]].
    case_bool_decide as Hd; [|now left].
    destruct (decide (g = f)) as [-> | Hgf].
    + rewrite lookup_insert_eq in H. injection H as ->.
      right. split; [now left | exact Hd].
    + rewrite lookup_insert_ne in H by exact Hgf. now left.
Qed.

(** Only a submitted value that differs from the original record's is
    retained. *)
Lemma collectPatch_sound (entry : obj) (inputs : list (string * string)) (f v : string) :
  collectPatch entry inputs !! f = Some v ->
  In (f, v) inputs /\ v <> orEmpty (entry !! f).
Proof.
  intros H. apply collect_fold_sound in H as [H | H]; [|exact H].
  rewrite lookup_empty in H. discriminate H.
Qed.

Lemma collectPatch_unchanged (entry : obj) (inputs : list (string * string)) :
  (forall f v, In (f, v) inputs -> v = orEmpty (entry !! f)) ->
  collectPatch entry inputs = ∅.
Proof.
  intros Heq. apply map_empty. intros f.
  destruct (collectPatch entry inputs !! f) as [v|] eqn:E; [|reflexivity].
  apply collectPatch_sound in E as [Hin Hne]. now apply Heq in Hin.
Qed.

Lemma collect_fold_notin (entry : obj) (inputs : list (string * string))
    (acc : gmap string string) (f : string) :
  ~ In f (map fst inputs) ->
  fold_left
    (fun (patch : gmap string string) (input : string * string) =>
       if bool_decide (snd input <> orEmpty (entry !! fst input))
       then <[fst input := snd input]> patch
       else patch) inputs acc !! f = acc !! f.
Proof.
  revert acc. induction inputs as [|[g u] inputs IH]; intros acc Hnot; simpl;
    [reflexivity|].
  simpl in Hnot. rewrite IH by tauto.
  case_bool_decide; [|reflexivity].
  apply lookup_insert_ne. tauto.
Qed.

Lemma collect_fold_complete (entry : obj) (inputs : list (string * string))
    (acc : gmap string string) (f v : string) :
  NoDup (map fst inputs) -> In (f, v) inputs -> v <> orEmpty (entry !! f) ->
  fold_left
    (fun (patch : gmap string string) (input : string * string) =>
       if bool_decide (snd input <> orEmpty (entry !! fst input))
       then <[fst input := snd input]> patch
       else patch) inputs acc !! f = Some v.
Proof.
  revert acc. induction inputs as [|[g u] inputs IH]; intros acc Hnd Hin Hne;
    [destruct Hin|].
  simpl in Hnd. apply NoDup_cons in Hnd as [Hg Hnd]. simpl.
  destruct Hin as [[= -> ->] | Hin].
  - rewrite collect_fold_notin by (rewrite <- list_elem_of_In; exact Hg).
    rewrite bool_decide_eq_true_2 by exact Hne. apply lookup_insert_eq.
  - now apply IH.
Qed.

(** With one input per field, as in the modal, the computed patch holds
    exactly the changes the inputs make to the original record. *)
Lemma collectPatch_retained (entry : obj) (inputs : list (string * string)) (f v : string) :
  NoDup (map fst inputs) ->
  collectPatch entry inputs !! f = Some v <-> retained entry inputs f v.
Proof.
  intros Hnd. split; [apply collectPatch_sound|].
  intros [Hin Hne]. now apply collect_fold_complete.
Qed.

Lemma collectPatch_not_retained (entry : obj) (inputs : list (string * string)) (f : string) :
  (forall v, ~ retained entry inputs f v) -> collectPatch entry inputs !! f = None.
Proof.
  intros Hno. destruct (collectPatch entry inputs !! f) as [v|] eqn:E; [|reflexivity].
  apply collectPatch_sound in E. now apply Hno in E.
Qed.

Lemma savePatch_unfold (st : State) (type : string) (entry : obj)
    (modalEl : list (string * string)) :
  editingEntry st = Some (type, entry) ->
  let key := getPatchKey type (identifierOf type entry) in
  let patch := collectPatch entry modalEl in
  (patch = ∅ -> savePatch st modalEl = Ok (closeModal st)) /\
  (patch <> ∅ ->
   exists st',
     savePatch st modalEl = Ok st' /\
     patches st' = <[key := patch ∪ default ∅ (patches st !! key)]> (patches st) /\
     storage st' = patches st' :: storage st /\
     editingEntry st' = None).
Proof.
  intros He key patch. unfold savePatch. rewrite He. fold key. fold patch. split.
  - intros ->. reflexivity.
  - intros Hne. apply map_size_non_empty_iff in Hne.
    destruct (size patch) as [|n] eqn:Es; [congruence|]. simpl.
    eexists. split; [reflexivity|]. simpl. auto.
Qed.

Lemma savePatch_total (st : State) (type : string) (entry : obj)
    (modalEl : list (string * string)) :
  editingEntry st = Some (type, entry) ->
  exists st', savePatch st modalEl = Ok st'.
Proof.
  intros He. destruct (savePatch_unfold st type entry modalEl He) as [Hnil Hcons].
  destruct (decide (collectPatch entry modalEl = ∅)) as [Hd | Hd].
  - eauto.
  - destruct (Hcons Hd) as (st' & Hs & _). eauto.
Qed.

(** [savePatch] never stores an empty patch. *)
Lemma savePatch_noEmptyPatch (st st' : State) (modalEl : list (string * string)) :
  noEmptyPatch st -> savePatch st modalEl = Ok st' -> noEmptyPatch st'.
Proof.
  intros Hinv Hs.
  destruct (editingEntry st) as [[type entry]|] eqn:He;
    [|unfold savePatch in Hs; rewrite He in Hs; discriminate Hs].
  destruct (savePatch_unfold st type entry modalEl He) as [Hnil Hcons].
  destruct (decide (collectPatch entry modalEl = ∅)) as [Hd | Hd].
  - rewrite (Hnil Hd) in Hs. injection Hs as <-. exact Hinv.
  - destruct (Hcons Hd) as (s2 & Hs2 & Hp & _).
    rewrite Hs2 in Hs. injection Hs as <-.
    intros k p Hk. rewrite Hp in Hk.
    destruct (decide (getPatchKey type (identifierOf type entry) = k)) as [<- | Hne].
    + rewrite lookup_insert_eq in Hk. injection Hk as <-.
      now apply map_positive_l_alt.
    + rewrite lookup_insert_ne in Hk by exact Hne. exact (Hinv k p Hk).
Qed.

(** The store of [st_rename] is what two saves leave behind: the unknown
    morpheme [a] renamed to [b], then the unknown morpheme [b] glossed. *)
Example st_rename_reachable :
  exists s1 s2,
    savePatch (openEditModal "unknown" morph_a st_none)
      [("form", "b"); ("gloss", "?"); ("pos", ""); ("notes", "")] = Ok s1 /\
    savePatch (openEditModal "unknown"
                 (mkObj [("form", "b"); ("gloss", "?"); ("type", "unknown")]) s1)
      [("form", "b"); ("gloss", "G"); ("pos", ""); ("notes", "")] = Ok s2 /\
    patches s2 = patches st_rename.
Proof. eexists _, _. split; [reflexivity|]. split; reflexivity. Qed.

(** C7. When every submitted value equals the original record's value
    for its field (an absent field read as the empty text), [savePatch]
    only closes the modal: the patch store is the one it was and nothing is
    handed to [localStorage].  In every case a field of the store after the
    save was either stored before with that value, or is a submitted value
    that differs from the original record's. *)
Theorem savePatch_noop_guard (st : State) (type : string) (entry : obj)
    (modalEl : list (string * string)) :
  editingEntry st = Some (type, entry) ->
  ((forall f v, In (f, v) modalEl -> v = orEmpty (entry !! f)) ->
   savePatch st modalEl = Ok (closeModal st) /\
   patches (closeModal st) = patches st /\
   storage (closeModal st) = storage st) /\
  (exists st', savePatch st modalEl = Ok st') /\
  (forall st' k p f v,
     savePatch st modalEl = Ok st' ->
     patches st' !! k = Some p -> p !! f = Some v ->
     (exists p0, patches st !! k = Some p0 /\ p0 !! f = Some v) \/
     (k = getPatchKey type (identifierOf type entry) /\
      In (f, v) modalEl /\ v <> orEmpty (entry !! f))).
Proof.
  intros He. destruct (savePatch_unfold st type entry modalEl He) as [Hnil Hcons].
  split; [|split].
  - intros Heq. split; [|split; reflexivity].
    apply Hnil. now apply collectPatch_unchanged.
  - exact (savePatch_total st type entry modalEl He).
  - intros st' k p f v Hs Hk Hf.
    destruct (decide (collectPatch entry modalEl = ∅)) as [Hd | Hd].
    + rewrite (Hnil Hd) in Hs. injection Hs as <-. left. eauto.
    + destruct (Hcons Hd) as (st2 & Hs2 & Hp & _).
      rewrite Hs2 in Hs. injection Hs as <-. rewrite Hp in Hk.
      destruct (decide (getPatchKey type (identifierOf type entry) = k)) as [<- | Hne].
      * rewrite lookup_insert_eq in Hk. injection Hk as <-.
        apply lookup_union_Some_raw in Hf as [Hf | [_ Hf]].
        -- right. split; [reflexivity|]. now apply collectPatch_sound.
        -- left.
           destruct (patches st !! getPatchKey type (identifierOf type entry)) as [p0|];
             simpl in Hf; [eauto | rewrite lookup_empty in Hf; discriminate Hf].
      * rewrite lookup_insert_ne in Hk by exact Hne. left. eauto.
Qed.

(** The modal opened on the glossary entry [g1] and saved with the
    entry's own values. *)
Lemma savePatch_noop_guard_witness :
  savePatch (openEditModal "glossary" entry_g1 st_none)
    [("form", "ama"); ("gloss", "love"); ("pos", "v"); ("notes", "")]
  = Ok st_none.
Proof.
  destruct (savePatch_noop_guard (openEditModal "glossary" entry_g1 st_none)
              "glossary" entry_g1
              [("form", "ama"); ("gloss", "love"); ("pos", "v"); ("notes", "")]
              eq_refl) as [H _].
  apply H. intros f v [[= <- <-] | [[= <- <-] | [[= <- <-] | [[= <- <-] | []]]]];
    vm_compute; reflexivity.
Defined.

Lemma savePatch_overlay (st st' : State) (type : string) (entry : obj)
    (q : gmap string string) (E : list (string * string)) :
  patches st !! getPatchKey type (identifierOf type entry) = Some q ->
  savePatch (openEditModal type entry st) E = Ok st' ->
  patches st' !! getPatchKey type (identifierOf type entry)
    = Some (collectPatch entry E ∪ q).
Proof.
  intros Hq Hs.
  destruct (savePatch_unfold (openEditModal type entry st) type entry E eq_refl)
    as [Hnil Hcons].
  destruct (decide (collectPatch entry E = ∅)) as [Hd | Hd].
  - rewrite (Hnil Hd) in Hs. injection Hs as <-. simpl.
    rewrite Hd, (left_id_L ∅ (∪)). exact Hq.
  - destruct (Hcons Hd) as (s2 & Hs' & Hp & _).
    rewrite Hs' in Hs. injection Hs as <-. rewrite Hp. simpl.
    rewrite lookup_insert_eq, Hq. reflexivity.
Qed.

(** C6. For a key that already has a patch, [savePatch] stores the
    overlay of the edit on the old patch: a field the edit changes has the
    edit's value, every other field keeps its patched value.  After two
    edits of the same entry that change disjoint sets of fields, the stored
    patch holds the fields of both edits with their values, and the fields
    of neither as they were.  (The fields an edit changes are those whose
    submitted value differs from the original record's; the inputs carry
    one value per field.) *)
Theorem savePatch_merges (st : State) (type : string) (entry : obj)
    (p0 : gmap string string) (E1 E2 : list (string * string)) :
  let key := getPatchKey type (identifierOf type entry) in
  NoDup (map fst E1) -> NoDup (map fst E2) ->
  patches st !! key = Some p0 ->
  exists st1 st2,
    savePatch (openEditModal type entry st) E1 = Ok st1 /\
    savePatch (openEditModal type entry st1) E2 = Ok st2 /\
    (exists p1, patches st1 !! key = Some p1 /\
       (forall f v, retained entry E1 f v -> p1 !! f = Some v) /\
       (forall f, (forall v, ~ retained entry E1 f v) -> p1 !! f = p0 !! f)) /\
    ((forall f v1 v2, retained entry E1 f v1 -> ~ retained entry E2 f v2) ->
     exists p2, patches st2 !! key = Some p2 /\
       (forall f v, retained entry E1 f v -> p2 !! f = Some v) /\
       (forall f v, retained entry E2 f v -> p2 !! f = Some v) /\
       (forall f, (forall v, ~ retained entry E1 f v) ->
                  (forall v, ~ retained entry E2 f v) -> p2 !! f = p0 !! f)).
Proof.
  intros key Hnd1 Hnd2 Hp0.
  destruct (savePatch_total (openEditModal type entry st) type entry E1 eq_refl)
    as [st1 Hs1].
  destruct (savePatch_total (openEditModal type entry st1) type entry E2 eq_refl)
    as [st2 Hs2].
  exists st1, st2. split; [exact Hs1|]. split; [exact Hs2|].
  pose proof (savePatch_overlay st st1 type entry p0 E1 Hp0 Hs1) as H1.
  pose proof (savePatch_overlay st1 st2 type entry _ E2 H1 Hs2) as H2.
  split.
  - exists (collectPatch entry E1 ∪ p0). split; [exact H1|]. split.
    + intros f v Hr. apply lookup_union_Some_l.
      now apply collectPatch_retained.
    + intros f Hno. apply lookup_union_r. now apply collectPatch_not_retained.
  - intros Hdisj.
    exists (collectPatch entry E2 ∪ (collectPatch entry E1 ∪ p0)).
    split; [exact H2|]. split; [|split].
    + intros f v Hr. rewrite lookup_union_r.
      * apply lookup_union_Some_l. now apply collectPatch_retained.
      * apply collectPatch_not_retained. intros v2. exact (Hdisj f v v2 Hr).
    + intros f v Hr. apply lookup_union_Some_l. now apply collectPatch_retained.
    + intros f Hno1 Hno2.
      rewrite lookup_union_r by now apply collectPatch_not_retained.
      apply lookup_union_r. now apply collectPatch_not_retained.
Qed.

(** The entry [g1], already patched in its gloss, edited first in [pos]
    and then in [notes]: the stored patch holds the three fields. *)
Lemma savePatch_merges_witness :
  exists st1 st2,
    savePatch (openEditModal "glossary" entry_g1 st_g1) [("pos", "verb")] = Ok st1 /\
    savePatch (openEditModal "glossary" entry_g1 st1) [("notes", "n")] = Ok st2 /\
    exists p2, patches st2 !! "glossary:g1" = Some p2 /\
      p2 !! "pos" = Some "verb" /\ p2 !! "notes" = Some "n" /\
      p2 !! "gloss" = Some "love (intr.)".
Proof.
  destruct (savePatch_merges st_g1 "glossary" entry_g1 patch_g1
              [("pos", "verb")] [("notes", "n")])
    as (st1 & st2 & Hs1 & Hs2 & _ & H).
  - repeat constructor. intros H. inversion H.
  - repeat constructor. intros H. inversion H.
  - reflexivity.
  - exists st1, st2. split; [exact Hs1|]. split; [exact Hs2|].
    destruct H as (p2 & Hp2 & Hd1 & Hd2 & Hout).
    + intros f v1 v2 [[[= <- <-] | []] _] [[[=] | []] _].
    + exists p2. split; [exact Hp2|].
      split; [apply Hd1; split; [left; reflexivity | discriminate]|].
      split; [apply Hd2; split; [left; reflexivity | discriminate]|].
      rewrite Hout; [reflexivity | |];
        intros v [[[=] | []] _].
Defined.


(** ** Callbacks that do not throw *)

Lemma filterR_pure {A : Type} (f : A -> result bool) (p : A -> bool) (l : list A) :
  (forall x, In x l -> f x = Ok (p x)) -> filterR f l = Ok (List.filter p l).
Proof.
  induction l as [|x l IH]; intros H; simpl; [reflexivity|].
  rewrite (H x) by now left. simpl.
  rewrite IH by (intros y Hy; apply H; now right). reflexivity.
Qed.

Lemma mapR_total {A B : Type} (f : A -> result B) (l : list A) :
  (forall x, In x l -> exists y, f x = Ok y) ->
  exists r, mapR f l = Ok r /\ Forall2 (fun x y => f x = Ok y) l r.
Proof.
  induction l as [|x l IH]; intros H; simpl.
  - exists []. split; [reflexivity | constructor].
  - destruct (H x) as [y Hy]; [now left|].
    destruct IH as (r & Hr & HF); [intros z Hz; apply H; now right|].
    exists (y :: r). rewrite Hy. simpl. rewrite Hr. simpl.
    split; [reflexivity | now constructor].
Qed.

Section SortFacts.

Context {A : Type} (cmp : A -> A -> result Z) (c : A -> A -> Z) (D : A -> Prop).
Hypothesis cmp_ok : forall x y, D x -> cmp x y = Ok (c x y).

Lemma insertBy_pure (x : A) (l : list A) :
  D x -> insertBy cmp x l = Ok (insertPure c x l).
Proof.
  intros Hx. induction l as [|y l IH]; simpl; [reflexivity|].
  rewrite (cmp_ok x y Hx). simpl.
  destruct (c x y <=? 0); [reflexivity|]. rewrite IH. reflexivity.
Qed.

Lemma sortBy_pure (l : list A) :
  Forall D l -> sortBy cmp l = Ok (sortPure c l).
Proof.
  induction 1 as [|x l Hx Hl IH]; simpl; [reflexivity|].
  rewrite IH. simpl. now apply insertBy_pure.
Qed.

End SortFacts.

Section SortPure.

Context {A : Type} (c : A -> A -> Z).

Lemma insertPure_perm (x : A) (l : list A) : Permutation (x :: l) (insertPure c x l).
Proof.
  induction l as [|y l IH]; simpl; [reflexivity|].
  destruct (c x y <=? 0); [reflexivity|].
  rewrite <- IH. apply perm_swap.
Qed.

Lemma sortPure_perm (l : list A) : Permutation l (sortPure c l).
Proof.
  induction l as [|x l IH]; simpl; [reflexivity|].
  rewrite <- insertPure_perm. now constructor.
Qed.

Hypothesis c_total : forall x y, 0 < c x y -> c y x <= 0.

Lemma insertPure_HdRel (y x : A) (l : list A) :
  c y x <= 0 -> HdRel (fun a b => c a b <= 0) y l ->
  HdRel (fun a b => c a b <= 0) y (insertPure c x l).
Proof.
  intros Hyx Hd. destruct l as [|z l]; simpl; [now constructor|].
  destruct (c x z <=? 0); constructor; [assumption|].
  now inversion Hd.
Qed.

Lemma insertPure_sorted (x : A) (l : list A) :
  Sorted (fun a b => c a b <= 0) l ->
  Sorted (fun a b => c a b <= 0) (insertPure c x l).
Proof.
  induction 1 as [|y l Hs IH Hd]; simpl.
  - repeat constructor.
  - destruct (c x y <=? 0) eqn:E.
    + apply Z.leb_le in E. repeat constructor; assumption.
    + apply Z.leb_gt in E. constructor; [exact IH|].
      apply insertPure_HdRel; [now apply c_total | exact Hd].
Qed.

Lemma sortPure_sorted (l : list A) : Sorted (fun a b => c a b <= 0) (sortPure c l).
Proof.
  induction l as [|x l IH]; simpl; [constructor | now apply insertPure_sorted].
Qed.

End SortPure.

(** ** The sidebar views *)

Lemma getEntryWithPatch_is_Some (st : State) (type : string) (e : obj) (f : string) :
  is_Some (e !! f) -> is_Some (getEntryWithPatch st type e !! f).
Proof.
  intros [v Hv]. unfold getEntryWithPatch.
  destruct (patches st !! _) as [p|]; [|eauto].
  destruct (p !! f) as [u|] eqn:E.
  - exists u. now apply lookup_union_Some_l.
  - exists v. now rewrite lookup_union_r.
Qed.

Lemma sourceIdsOf_In (ty : string) (w : Word) (id : option string) :
  In id (sourceIdsOf ty w) <->
  exists m, In m (morphemes w) /\ m !! "source_type" = Some ty /\ m !! "source_id" = id.
Proof.
  unfold sourceIdsOf. rewrite in_map_iff. split.
  - intros (m & Hid & Hin). apply filter_In in Hin as [Hin Hty].
    apply bool_decide_eq_true in Hty. eauto.
  - intros (m & Hin & Hty & Hid). exists m. split; [exact Hid|].
    apply filter_In. split; [exact Hin | now apply bool_decide_eq_true].
Qed.

Lemma sourceIdsOf_nil (ty : string) (w : Word) :
  Nat.ltb 0 (length (sourceIdsOf ty w)) = false <->
  forall m, In m (morphemes w) -> m !! "source_type" <> Some ty.
Proof.
  rewrite Nat.ltb_ge. split.
  - intros Hlen m Hin Hty.
    assert (Hid : In (m !! "source_id") (sourceIdsOf ty w))
      by (apply sourceIdsOf_In; eauto).
    destruct (sourceIdsOf ty w); [destruct Hid | simpl in Hlen; lia].
  - intros Hno. destruct (sourceIdsOf ty w) as [|id l] eqn:E; [simpl; lia|].
    assert (Hid : In id (sourceIdsOf ty w)) by (rewrite E; now left).
    apply sourceIdsOf_In in Hid as (m & Hin & Hty & _). now apply Hno in Hin.
Qed.

Lemma filter_all {A : Type} (l : list A) : List.filter (fun _ => true) l = l.
Proof. induction l as [|x l IH]; simpl; congruence. Qed.

Lemma scopeTo_filter (ty : string) (selected : option Word) (entries : list obj) :
  scopeTo ty selected entries = List.filter (inScopeb ty selected) entries.
Proof.
  unfold scopeTo, inScopeb. destruct selected as [w|]; [|now rewrite filter_all].
  destruct (Nat.ltb 0 (length (sourceIdsOf ty w))); simpl;
    [reflexivity | now rewrite filter_all].
Qed.

Lemma inScopeb_iff (ty : string) (selected : option Word) (e : obj) :
  inScopeb ty selected e = true <-> inScope ty selected e.
Proof.
  unfold inScopeb, inScope. destruct selected as [w|]; [|tauto].
  rewrite orb_true_iff, negb_true_iff, sourceIdsOf_nil, bool_decide_eq_true.
  rewrite list_elem_of_In, sourceIdsOf_In. reflexivity.
Qed.

Lemma filter_filter {A : Type} (p q : A -> bool) (l : list A) :
  List.filter q (List.filter p l) = List.filter (fun x => p x && q x) l.
Proof.
  induction l as [|x l IH]; simpl; [reflexivity|].
  destruct (p x); simpl; [destruct (q x)|]; congruence.
Qed.

Section ViewFacts.

Variable toLowerCase : string -> string.
Variable localeCompare : string -> string -> Z.

Lemma compareForm_ok (a b : obj) :
  is_Some (a !! "form") -> compareForm localeCompare a b = Ok (byForm localeCompare a b).
Proof. intros [v Hv]. unfold compareForm, byForm. rewrite Hv. reflexivity. Qed.

Lemma glossaryMatch_ok (st : State) (search : string) (e : obj) :
  is_Some (e !! "form") -> is_Some (e !! "gloss") ->
  glossaryMatch toLowerCase st search e = Ok (glossaryMatchb toLowerCase st search e).
Proof.
  intros Hf Hg.
  apply (getEntryWithPatch_is_Some st "glossary") in Hf as [f Hf].
  apply (getEntryWithPatch_is_Some st "glossary") in Hg as [g Hg].
  unfold glossaryMatch, glossaryMatchb. cbv zeta. rewrite Hf, Hg. simpl.
  destruct (includes (toLowerCase f) search); reflexivity.
Qed.

Lemma glossaryMatchb_iff (st : State) (e : obj) :
  is_Some (e !! "form") -> is_Some (e !! "gloss") ->
  glossaryMatchb toLowerCase st (toLowerCase (sidebarSearch st)) e = true <->
  matchesQuery toLowerCase ["form"; "gloss"] st "glossary" (sidebarSearch st) e.
Proof.
  intros Hf Hg.
  apply (getEntryWithPatch_is_Some st "glossary") in Hf as [f Hf].
  apply (getEntryWithPatch_is_Some st "glossary") in Hg as [g Hg].
  unfold glossaryMatchb, matchesQuery. cbv zeta. rewrite Hf, Hg. simpl.
  rewrite orb_true_iff. split.
  - intros [H | H]; [exists "form", f | exists "gloss", g]; simpl; auto.
  - intros (k & s & [<- | [<- | []]] & Hs & Hinc); [left | right]; congruence.
Qed.

Lemma keepGlossary_iff (st : State) (e : obj) :
  is_Some (e !! "form") -> is_Some (e !! "gloss") ->
  keepGlossary toLowerCase st e = true <->
  inScope "glossary" (selectedWord st) e /\
  inQuery toLowerCase ["form"; "gloss"] st "glossary" e.
Proof.
  intros Hf Hg. unfold keepGlossary, inQuery.
  rewrite andb_true_iff, orb_true_iff, inScopeb_iff, (glossaryMatchb_iff st e Hf Hg).
  simpl. rewrite negb_involutive, String.eqb_eq. reflexivity.
Qed.

(** The glossary view on a document whose entries in scope have a form
    and a gloss: filter by scope and query, sort by form, keep fifty. *)
Lemma getFilteredGlossary_wf (st : State) (g : GlossaryDocument.t) :
  glossary st = Some g ->
  (forall e : obj, In e (GlossaryDocument.entries g) ->
     inScope "glossary" (selectedWord st) e ->
     is_Some (e !! "form") /\ is_Some (e !! "gloss")) ->
  getFilteredGlossary toLowerCase localeCompare st =
    Ok (take 50 (sortPure (byForm localeCompare)
                   (List.filter (keepGlossary toLowerCase st) (GlossaryDocument.entries g)))).
Proof.
  intros Hg Hwf.
  assert (Hwf' : forall e, In e (List.filter (inScopeb "glossary" (selectedWord st))
                                   (GlossaryDocument.entries g)) ->
                 is_Some (e !! "form") /\ is_Some (e !! "gloss")).
  { intros e He. apply filter_In in He as [He Hs]. apply Hwf; [exact He|].
    exact (proj1 (inScopeb_iff _ _ _) Hs). }
  unfold getFilteredGlossary. rewrite Hg. cbv zeta.
  rewrite scopeTo_filter.
  assert (Hfilter :
    (if truthy (Some (toLowerCase (sidebarSearch st)))
     then filterR (glossaryMatch toLowerCase st (toLowerCase (sidebarSearch st)))
            (List.filter (inScopeb "glossary" (selectedWord st)) (GlossaryDocument.entries g))
     else Ok (List.filter (inScopeb "glossary" (selectedWord st)) (GlossaryDocument.entries g)))
    = Ok (List.filter (keepGlossary toLowerCase st) (GlossaryDocument.entries g))).
  { unfold keepGlossary.
    destruct (truthy (Some (toLowerCase (sidebarSearch st)))); simpl.
    - rewrite (filterR_pure _
                 (glossaryMatchb toLowerCase st (toLowerCase (sidebarSearch st)))).
      + now rewrite filter_filter.
      + intros e He. destruct (Hwf' e He). now apply glossaryMatch_ok.
    - f_equal. apply filter_ext. intros e. now rewrite andb_true_r. }
  rewrite Hfilter. simpl.
  rewrite (sortBy_pure (compareForm localeCompare) (byForm localeCompare)
             (fun e : obj => is_Some (e !! "form"))).
  - reflexivity.
  - intros a b. apply compareForm_ok.
  - apply List.Forall_forall. intros e He. apply filter_In in He as [He Hk].
    apply andb_true_iff in Hk as [Hs _].
    assert (Hin : In e (List.filter (inScopeb "glossary" (selectedWord st))
                          (GlossaryDocument.entries g)))
      by (apply filter_In; auto).
    now destruct (Hwf' e Hin).
Qed.

Lemma getFilteredGlossary_unloaded (st : State) :
  glossary st = None -> getFilteredGlossary toLowerCase localeCompare st = Ok [].
Proof. intros H. unfold getFilteredGlossary. now rewrite H. Qed.

Lemma ruleMatch_ok (st : State) (search : string) (e : obj) :
  is_Some (e !! "form") -> is_Some (e !! "gloss") -> is_Some (e !! "description") ->
  ruleMatch toLowerCase st search e = Ok (ruleMatchb toLowerCase st search e).
Proof.
  intros Hf Hg Hd.
  apply (getEntryWithPatch_is_Some st "rule") in Hf as [f Hf].
  apply (getEntryWithPatch_is_Some st "rule") in Hg as [g Hg].
  apply (getEntryWithPatch_is_Some st "rule") in Hd as [d Hd].
  unfold ruleMatch, ruleMatchb. cbv zeta. rewrite Hf, Hg, Hd. simpl.
  destruct (includes (toLowerCase f) search); [reflexivity|]. simpl.
  destruct (includes (toLowerCase g) search); reflexivity.
Qed.

(** The rule view on a document whose rules in scope have a form, a gloss
    and a description: filter by scope and query, sort by form, no cut. *)
Lemma getFilteredRules_wf (st : State) (r : RuleDocument.t) :
  rules st = Some r ->
  (forall e : obj, In e (RuleDocument.rules r) ->
     inScope "rule" (selectedWord st) e ->
     is_Some (e !! "form") /\ is_Some (e !! "gloss") /\ is_Some (e !! "description")) ->
  getFilteredRules toLowerCase localeCompare st =
    Ok (sortPure (byForm localeCompare)
          (List.filter (keepRule toLowerCase st) (RuleDocument.rules r))).
Proof.
  intros Hr Hwf.
  assert (Hwf' : forall e, In e (List.filter (inScopeb "rule" (selectedWord st))
                                   (RuleDocument.rules r)) ->
                 is_Some (e !! "form") /\ is_Some (e !! "gloss") /\
                 is_Some (e !! "description")).
  { intros e He. apply filter_In in He as [He Hs]. apply Hwf; [exact He|].
    exact (proj1 (inScopeb_iff _ _ _) Hs). }
  unfold getFilteredRules. rewrite Hr. cbv zeta.
  rewrite scopeTo_filter.
  assert (Hfilter :
    (if truthy (Some (toLowerCase (sidebarSearch st)))
     then filterR (ruleMatch toLowerCase st (toLowerCase (sidebarSearch st)))
            (List.filter (inScopeb "rule" (selectedWord st)) (RuleDocument.rules r))
     else Ok (List.filter (inScopeb "rule" (selectedWord st)) (RuleDocument.rules r)))
    = Ok (List.filter (keepRule toLowerCase st) (RuleDocument.rules r))).
  { unfold keepRule.
    destruct (truthy (Some (toLowerCase (sidebarSearch st)))); simpl.
    - rewrite (filterR_pure _
                 (ruleMatchb toLowerCase st (toLowerCase (sidebarSearch st)))).
      + now rewrite filter_filter.
      + intros e He. destruct (Hwf' e He) as (? & ? & ?). now apply ruleMatch_ok.
    - f_equal. apply filter_ext. intros e. now rewrite andb_true_r. }
  rewrite Hfilter. simpl.
  apply (sortBy_pure (compareForm localeCompare) (byForm localeCompare)
           (fun e : obj => is_Some (e !! "form"))).
  - intros a b. apply compareForm_ok.
  - apply List.Forall_forall. intros e He. apply filter_In in He as [He Hk].
    apply andb_true_iff in Hk as [Hs _].
    assert (Hin : In e (List.filter (inScopeb "rule" (selectedWord st))
                          (RuleDocument.rules r)))
      by (apply filter_In; auto).
    now destruct (Hwf' e Hin).
Qed.

End ViewFacts.

(** C3, as the code has it: on a loaded glossary whose entries have a
    form and a gloss, the glossary view returns the first fifty of the
    entries in scope that match the query, sorted ascending by their own,
    unpatched, form under [localeCompare]; the cut comes after the filter
    and the sort, so the view never has more than fifty entries. *)
Theorem getFilteredGlossary_sorted_truncated
    (toLowerCase : string -> string) (localeCompare : string -> string -> Z)
    (st : State) (g : GlossaryDocument.t) :
  (forall a b, 0 < localeCompare a b -> localeCompare b a <= 0) ->
  glossary st = Some g ->
  Forall (fun e : obj => is_Some (e !! "form") /\ is_Some (e !! "gloss"))
         (GlossaryDocument.entries g) ->
  exists (all : list obj) (keep : obj -> bool),
    getFilteredGlossary toLowerCase localeCompare st = Ok (take 50 all) /\
    Permutation (List.filter keep (GlossaryDocument.entries g)) all /\
    (forall e, In e (GlossaryDocument.entries g) ->
       (keep e = true <->
        inScope "glossary" (selectedWord st) e /\
        inQuery toLowerCase ["form"; "gloss"] st "glossary" e)) /\
    Sorted (fun a b => byForm localeCompare a b <= 0) all /\
    (length (take 50 all) <= 50)%nat.
Proof.
  intros Htotal Hg Hwf. rewrite List.Forall_forall in Hwf.
  exists (sortPure (byForm localeCompare)
            (List.filter (keepGlossary toLowerCase st) (GlossaryDocument.entries g))),
         (keepGlossary toLowerCase st).
  split; [|split; [|split; [|split]]].
  - apply getFilteredGlossary_wf; [exact Hg | intros e He _; now apply Hwf].
  - apply sortPure_perm.
  - intros e He. destruct (Hwf e He). now apply keepGlossary_iff.
  - apply sortPure_sorted. intros a b. apply Htotal.
  - rewrite length_take. lia.
Qed.

Lemma ordinalCompare_total (a b : string) :
  0 < ordinalCompare a b -> ordinalCompare b a <= 0.
Proof.
  unfold ordinalCompare. rewrite (String.compare_antisym a b).
  destruct (String.compare b a); simpl; lia.
Qed.

Lemma wf_entries_a_b :
  Forall (fun e : obj => is_Some (e !! "form") /\ is_Some (e !! "gloss"))
         [entry_b; entry_a].
Proof. repeat constructor; eexists; reflexivity. Qed.

(** The entries of [st_selected_b]: the view has at most fifty of them. *)
Lemma getFilteredGlossary_sorted_truncated_witness :
  exists (all : list obj) (keep : obj -> bool),
    getFilteredGlossary asciiToLowerCase ordinalCompare st_selected_b = Ok (take 50 all) /\
    Permutation (List.filter keep [entry_b; entry_a]) all /\
    (forall e, In e [entry_b; entry_a] ->
       (keep e = true <->
        inScope "glossary" (Some word_b) e /\
        inQuery asciiToLowerCase ["form"; "gloss"] st_selected_b "glossary" e)) /\
    Sorted (fun a b => byForm ordinalCompare a b <= 0) all /\
    (length (take 50 all) <= 50)%nat.
Proof.
  exact (getFilteredGlossary_sorted_truncated asciiToLowerCase ordinalCompare
           st_selected_b {| GlossaryDocument.entries := [entry_b; entry_a] |}
           ordinalCompare_total eq_refl wf_entries_a_b).
Defined.

(** C3 as stated fails: the entry [a], shown under its patched form [c],
    stays in front of the entry [b]. *)
Lemma getFilteredGlossary_not_by_effective_form :
  getFilteredGlossary asciiToLowerCase ordinalCompare st_sorted = Ok [entry_a; entry_b] /\
  getEntryWithPatch st_sorted "glossary" entry_a !! "form" = Some "c" /\
  getEntryWithPatch st_sorted "glossary" entry_b !! "form" = Some "b" /\
  ~ Sorted (fun a b => byEffectiveForm ordinalCompare st_sorted "glossary" a b <= 0)
      [entry_a; entry_b].
Proof.
  split; [reflexivity|]. split; [reflexivity|]. split; [reflexivity|].
  intros H. inversion H as [|? ? _ Hd]; subst.
  inversion Hd as [|? ? Hle]; subst.
  assert (E : byEffectiveForm ordinalCompare st_sorted "glossary" entry_a entry_b = 1)
    by reflexivity.
  rewrite E in Hle. lia.
Qed.

(** C4, as the code has it: with a selected word, the glossary view holds
    the entries of the document that are in scope and match the query,
    sorted by form and cut to fifty.  An entry is in scope when its own,
    unpatched, id is the [source_id] of a glossary morpheme of the word, or
    when the word has no glossary morpheme at all; the query is tested only
    on the entries in scope. *)
Theorem getFilteredGlossary_scoped
    (toLowerCase : string -> string) (localeCompare : string -> string -> Z)
    (st : State) (g : GlossaryDocument.t) (w : Word) :
  (forall a b, 0 < localeCompare a b -> localeCompare b a <= 0) ->
  glossary st = Some g ->
  selectedWord st = Some w ->
  (forall e : obj, In e (GlossaryDocument.entries g) ->
     ((forall m, In m (morphemes w) -> m !! "source_type" <> Some "glossary") \/
      referencedBy "glossary" w e) ->
     is_Some (e !! "form") /\ is_Some (e !! "gloss")) ->
  exists all : list obj,
    getFilteredGlossary toLowerCase localeCompare st = Ok (take 50 all) /\
    (forall e, In e all <->
       In e (GlossaryDocument.entries g) /\
       ((forall m, In m (morphemes w) -> m !! "source_type" <> Some "glossary") \/
        referencedBy "glossary" w e) /\
       inQuery toLowerCase ["form"; "gloss"] st "glossary" e) /\
    Sorted (fun a b => byForm localeCompare a b <= 0) all /\
    ((exists m, In m (morphemes w) /\ m !! "source_type" = Some "glossary") ->
     forall e, In e (take 50 all) -> referencedBy "glossary" w e).
Proof.
  intros Htotal Hg Hw Hwf.
  assert (Hwf' : forall e, In e (GlossaryDocument.entries g) ->
            inScope "glossary" (selectedWord st) e ->
            is_Some (e !! "form") /\ is_Some (e !! "gloss"))
    by (rewrite Hw; exact Hwf).
  assert (Hall : forall e,
    In e (sortPure (byForm localeCompare)
            (List.filter (keepGlossary toLowerCase st) (GlossaryDocument.entries g))) <->
    In e (GlossaryDocument.entries g) /\
    inScope "glossary" (selectedWord st) e /\
    inQuery toLowerCase ["form"; "gloss"] st "glossary" e).
  { intros e.
    rewrite <- (Permutation_in' (eq_refl e) (sortPure_perm (byForm localeCompare) _)).
    rewrite filter_In. split.
    - intros [He Hk]. split; [exact He|].
      assert (Hs : inScope "glossary" (selectedWord st) e).
      { unfold keepGlossary in Hk. apply andb_true_iff in Hk as [Hs _].
        exact (proj1 (inScopeb_iff _ _ _) Hs). }
      destruct (Hwf' e He Hs) as [Hf Hgl].
      exact (proj1 (keepGlossary_iff toLowerCase st e Hf Hgl) Hk).
    - intros (He & Hs & Hq). split; [exact He|].
      destruct (Hwf' e He Hs) as [Hf Hgl].
      exact (proj2 (keepGlossary_iff toLowerCase st e Hf Hgl) (conj Hs Hq)). }
  eexists. split; [exact (getFilteredGlossary_wf toLowerCase localeCompare st g Hg Hwf')|].
  rewrite Hw in Hall. split; [exact Hall|].
  split; [apply sortPure_sorted; intros a b; apply Htotal|].
  intros (m & Hm & Hty) e He.
  assert (He' : In e (sortPure (byForm localeCompare)
            (List.filter (keepGlossary toLowerCase st) (GlossaryDocument.entries g)))).
  { apply list_elem_of_In. apply list_elem_of_In in He.
    exact (subseteq_take 50 _ e He). }
  apply Hall in He' as (_ & [Hno | Href] & _); [|exact Href].
  exfalso. exact (Hno m Hm Hty).
Qed.

Lemma referencedBy_b_inv (e : obj) :
  referencedBy "glossary" word_b e -> e !! "id" = Some "g2".
Proof. intros (m & [<- | []] & _ & Hid). rewrite <- Hid. reflexivity. Qed.

(** The word [b] selected and the query [Y]: the view is the entry [g2]
    alone, the one the word refers to. *)
Lemma getFilteredGlossary_scoped_witness :
  exists all : list obj,
    getFilteredGlossary asciiToLowerCase ordinalCompare st_selected_b = Ok (take 50 all) /\
    forall e, In e (take 50 all) -> referencedBy "glossary" word_b e.
Proof.
  destruct (getFilteredGlossary_scoped asciiToLowerCase ordinalCompare st_selected_b
              {| GlossaryDocument.entries := [entry_b; entry_a] |} word_b
              ordinalCompare_total eq_refl eq_refl) as (all & Hres & _ & _ & Href).
  - intros e [<- | [<- | []]] _; split; eexists; reflexivity.
  - exists all. split; [exact Hres|]. apply Href.
    exists morph_b. split; [left; reflexivity | reflexivity].
Defined.

(** C4 as stated fails for a selected word without a glossary morpheme:
    the view is not restricted, it holds entries the word does not refer
    to. *)
Lemma getFilteredGlossary_unscoped :
  selectedWord st_selected_di = Some word_di /\
  getFilteredGlossary asciiToLowerCase ordinalCompare st_selected_di
    = Ok [entry_a; entry_b] /\
  ~ referencedBy "glossary" word_di entry_a.
Proof.
  split; [reflexivity|]. split; [reflexivity|].
  intros (m & [<- | []] & Hty & _). vm_compute in Hty. discriminate Hty.
Qed.

(** ** [getFilteredRules] *)

(** C5 fails on the code: with a query in the search box, a rule in
    scope whose effective form and gloss do not contain the query and whose
    effective description is absent makes [getFilteredRules] throw. *)
Theorem getFilteredRules_throws
    (toLowerCase : string -> string) (localeCompare : string -> string -> Z)
    (st : State) (r : RuleDocument.t) (rule : obj) (form gloss : string) :
  rules st = Some r ->
  toLowerCase (sidebarSearch st) <> "" ->
  In rule (scopeTo "rule" (selectedWord st) (RuleDocument.rules r)) ->
  getEntryWithPatch st "rule" rule !! "form" = Some form ->
  getEntryWithPatch st "rule" rule !! "gloss" = Some gloss ->
  getEntryWithPatch st "rule" rule !! "description" = None ->
  includes (toLowerCase form) (toLowerCase (sidebarSearch st)) = false ->
  includes (toLowerCase gloss) (toLowerCase (sidebarSearch st)) = false ->
  getFilteredRules toLowerCase localeCompare st = TypeError.
Proof.
  intros Hr Hq Hin Hf Hg Hd Hnf Hng.
  unfold getFilteredRules. rewrite Hr. cbv zeta.
  assert (Ht : truthy (Some (toLowerCase (sidebarSearch st))) = true).
  { simpl. apply negb_true_iff, String.eqb_neq. exact Hq. }
  rewrite Ht.
  assert (Hthrow : ruleMatch toLowerCase st (toLowerCase (sidebarSearch st)) rule
                   = TypeError).
  { unfold ruleMatch. cbv zeta. rewrite Hf, Hg, Hd. simpl.
    rewrite Hnf. simpl. rewrite Hng. reflexivity. }
  assert (Hfil : forall l, In rule l ->
            filterR (ruleMatch toLowerCase st (toLowerCase (sidebarSearch st))) l
            = TypeError).
  { induction l as [|x l IH]; intros Hl; [destruct Hl|]. simpl.
    destruct Hl as [-> | Hl].
    - rewrite Hthrow. reflexivity.
    - rewrite (IH Hl).
      destruct (ruleMatch toLowerCase st (toLowerCase (sidebarSearch st)) x);
        reflexivity. }
  rewrite (Hfil _ Hin). reflexivity.
Qed.

(** The rule [r1] has no description; the query [q] is in neither its
    form nor its gloss. *)
Lemma getFilteredRules_throws_witness :
  getFilteredRules asciiToLowerCase ordinalCompare st_rule_nodesc = TypeError.
Proof.
  apply (getFilteredRules_throws asciiToLowerCase ordinalCompare st_rule_nodesc
           {| RuleDocument.rules := [rule_r1] |} rule_r1 "lar" "PL");
    try reflexivity.
  - discriminate.
  - left. reflexivity.
Defined.

(** ** [getMorphemeEntries] *)

Lemma findById_None (l : list obj) (id : option string) :
  (forall e, In e l -> e !! "id" <> id) -> findById l id = None.
Proof.
  intros H. unfold findById. induction l as [|e l IH]; simpl; [reflexivity|].
  rewrite bool_decide_eq_false_2 by (apply H; now left).
  apply IH. intros x Hx. apply H. now right.
Qed.

Lemma morphemeEntry_total (st : State) (g : GlossaryDocument.t) (r : RuleDocument.t)
    (m : obj) :
  glossary st = Some g -> rules st = Some r ->
  exists y, morphemeEntry st m = Ok y.
Proof.
  intros Hg Hr. unfold morphemeEntry. rewrite Hg, Hr.
  repeat case_bool_decide; try destruct (findById _ _); eauto.
Qed.

(** C9. With both documents loaded, [getMorphemeEntries] returns one
    object per morpheme of the word, and for a morpheme whose
    [source_type] is [glossary] or [rule] and whose [source_id] is the id of
    no record of that document the object is [{type: 'unknown', morpheme}]. *)
Theorem getMorphemeEntries_dangling (st : State) (g : GlossaryDocument.t)
    (r : RuleDocument.t) (w : Word) :
  glossary st = Some g ->
  rules st = Some r ->
  exists res : list MorphemeEntry,
    getMorphemeEntries st (Some w) = Ok res /\
    length res = length (morphemes w) /\
    forall (i : nat) (m : obj),
      morphemes w !! i = Some m ->
      (m !! "source_type" = Some "glossary" /\
       (forall e, In e (GlossaryDocument.entries g) -> e !! "id" <> m !! "source_id")) \/
      (m !! "source_type" = Some "rule" /\
       (forall e, In e (RuleDocument.rules r) -> e !! "id" <> m !! "source_id")) ->
      res !! i = Some {| me_type := "unknown"; me_entry := None;
                         me_originalEntry := None; me_morpheme := m |}.
Proof.
  intros Hg Hr.
  destruct (mapR_total (morphemeEntry st) (morphemes w)) as (res & Hres & HF).
  { intros m _. exact (morphemeEntry_total st g r m Hg Hr). }
  exists res. split; [exact Hres|]. split.
  { symmetry. exact (Forall2_length _ _ _ HF). }
  intros i m Hi Hdangling.
  destruct (Forall2_lookup_l _ _ _ _ _ HF Hi) as (y & Hy & Hm).
  rewrite Hy. f_equal.
  unfold morphemeEntry in Hm. rewrite Hg, Hr in Hm.
  destruct Hdangling as [[Hty Hno] | [Hty Hno]].
  - rewrite bool_decide_eq_true_2 in Hm by exact Hty.
    rewrite (findById_None _ _ Hno) in Hm. now injection Hm.
  - rewrite bool_decide_eq_false_2 in Hm by (rewrite Hty; discriminate).
    rewrite bool_decide_eq_true_2 in Hm by exact Hty.
    rewrite (findById_None _ _ Hno) in Hm. now injection Hm.
Qed.

(** The third scenario: the morpheme that refers to the rule [r99]
    resolves to an unknown entry, next to the glossary morpheme [b]. *)
Lemma getMorphemeEntries_dangling_witness :
  exists res : list MorphemeEntry,
    getMorphemeEntries st_docs (Some word_b_r99) = Ok res /\
    length res = 2%nat /\
    res !! 1%nat = Some {| me_type := "unknown"; me_entry := None;
                           me_originalEntry := None; me_morpheme := morph_r99 |}.
Proof.
  destruct (getMorphemeEntries_dangling st_docs
              {| GlossaryDocument.entries := [entry_a; entry_b] |}
              {| RuleDocument.rules := [rule_r1] |} word_b_r99 eq_refl eq_refl)
    as (res & Hres & Hlen & Hd).
  exists res. split; [exact Hres|]. split; [exact Hlen|].
  apply Hd; [reflexivity|].
  right. split; [reflexivity|].
  intros e [<- | []] H. vm_compute in H. discriminate H.
Defined.

(** * Further properties of the code *)

(** ** Patch keys *)

Lemma getPatchKey_kind_neq (t1 t2 : string) (i1 i2 : option string) :
  isKind t1 -> isKind t2 -> t1 <> t2 -> getPatchKey t1 i1 <> getPatchKey t2 i2.
Proof.
  unfold getPatchKey.
  intros [-> | [-> | ->]] [-> | [-> | ->]] Hne H; try congruence;
    simpl in H; discriminate H.
Qed.

(** X1. For the three kinds the code uses, the patch key tells the kind
    and the identifier: two keys are equal only for the same kind and
    identifiers that are written the same way. *)
Theorem getPatchKey_injective (t1 t2 : string) (i1 i2 : option string) :
  isKind t1 -> isKind t2 ->
  getPatchKey t1 i1 = getPatchKey t2 i2 ->
  t1 = t2 /\ toStr i1 = toStr i2.
Proof.
  intros H1 H2 H. destruct (decide (t1 = t2)) as [-> | Hne].
  - split; [reflexivity|]. unfold getPatchKey in H.
    destruct H2 as [-> | [-> | ->]]; simpl in H; now injection H.
  - exfalso. exact (getPatchKey_kind_neq t1 t2 i1 i2 H1 H2 Hne H).
Qed.

Lemma getPatchKey_injective_witness :
  "glossary" = "glossary" /\ toStr (Some "g1") = toStr (Some "g1").
Proof.
  apply (getPatchKey_injective "glossary" "glossary" (Some "g1") (Some "g1")).
  - left. reflexivity.
  - left. reflexivity.
  - reflexivity.
Defined.

(** ** More on [savePatch] *)

Lemma collect_fold_mono (entry : obj) (inputs : list (string * string))
    (acc : gmap string string) (f : string) :
  is_Some (acc !! f) ->
  is_Some (fold_left
    (fun (patch : gmap string string) (input : string * string) =>
       if bool_decide (snd input <> orEmpty (entry !! fst input))
       then <[fst input := snd input]> patch
       else patch) inputs acc !! f).
Proof.
  revert acc. induction inputs as [|[g u] inputs IH]; intros acc Hacc; simpl;
    [exact Hacc|].
  apply IH. case_bool_decide; [|exact Hacc].
  destruct (decide (g = f)) as [-> | Hgf].
  - rewrite lookup_insert_eq. eauto.
  - now rewrite lookup_insert_ne.
Qed.

(** A field that some input changes is in the computed patch. *)
Lemma collectPatch_changed (entry : obj) (inputs : list (string * string)) (f v : string) :
  retained entry inputs f v -> is_Some (collectPatch entry inputs !! f).
Proof.
  intros [Hin Hne]. unfold collectPatch.
  generalize (∅ : gmap string string) as acc.
  induction inputs as [|[g u] inputs IH]; intros acc; [destruct Hin|]. simpl.
  destruct Hin as [[= -> ->] | Hin]; [|now apply IH].
  apply collect_fold_mono. rewrite bool_decide_eq_true_2 by exact Hne.
  rewrite lookup_insert_eq. eauto.
Qed.

(** Opening the modal on an entry and saving: the state that results. *)
Lemma savePatch_open (st : State) (type : string) (entry : obj)
    (E : list (string * string)) :
  exists st',
    savePatch (openEditModal type entry st) E = Ok st' /\
    editingEntry st' = None /\
    ((collectPatch entry E = ∅ /\ patches st' = patches st /\
      storage st' = storage st) \/
     (collectPatch entry E <> ∅ /\
      patches st' =
        <[getPatchKey type (identifierOf type entry) :=
            collectPatch entry E
            ∪ default ∅ (patches st !! getPatchKey type (identifierOf type entry))]>
          (patches st) /\
      storage st' = patches st' :: storage st)).
Proof.
  destruct (savePatch_unfold (openEditModal type entry st) type entry E eq_refl)
    as [Hnil Hcons].
  destruct (decide (collectPatch entry E = ∅)) as [Hd | Hd].
  - eexists. split; [exact (Hnil Hd)|]. split; [reflexivity|]. left. auto.
  - destruct (Hcons Hd) as (st' & Hs & Hp & Hst & He).
    exists st'. split; [exact Hs|]. split; [exact He|]. right. auto.
Qed.

(** X2. Saving an edit touches one key only, and takes nothing away: the
    patch under any other key is the one it was, and every field that was
    patched before, under any key, is still patched afterwards. *)
Theorem savePatch_frame (st : State) (type : string) (entry : obj)
    (E : list (string * string)) :
  exists st',
    savePatch (openEditModal type entry st) E = Ok st' /\
    (forall k, k <> getPatchKey type (identifierOf type entry) ->
       patches st' !! k = patches st !! k) /\
    (forall k p f, patches st !! k = Some p -> is_Some (p !! f) ->
       exists p', patches st' !! k = Some p' /\ is_Some (p' !! f)).
Proof.
  destruct (savePatch_open st type entry E)
    as (st' & Hs & _ & [(_ & Hp & _) | (_ & Hp & _)]);
    exists st'; (split; [exact Hs|]); rewrite Hp.
  - split; [reflexivity | eauto].
  - split; [intros k Hk; now apply lookup_insert_ne|].
    intros k p f Hk Hf.
    destruct (decide (getPatchKey type (identifierOf type entry) = k)) as [<- | Hne].
    + rewrite lookup_insert_eq, Hk. simpl. eexists. split; [reflexivity|].
      destruct (collectPatch entry E !! f) as [v|] eqn:Ev.
      * exists v. now apply lookup_union_Some_l.
      * now rewrite lookup_union_r.
    + rewrite lookup_insert_ne by exact Hne. eauto.
Qed.

(** X3. [hasPatched] never goes back to false through a save, and after a
    save that changes at least one field it is true for the edited entry. *)
Theorem savePatch_hasPatched (st : State) (type : string) (entry : obj)
    (E : list (string * string)) :
  exists st',
    savePatch (openEditModal type entry st) E = Ok st' /\
    (forall t i, hasPatched st t i = true -> hasPatched st' t i = true) /\
    ((exists f v, retained entry E f v) ->
     hasPatched st' type (identifierOf type entry) = true).
Proof.
  destruct (savePatch_open st type entry E)
    as (st' & Hs & _ & [(Hd & Hp & _) | (_ & Hp & _)]);
    exists st'; (split; [exact Hs|]); unfold hasPatched; rewrite Hp.
  - split; [auto|]. intros (f & v & Hr).
    apply collectPatch_changed in Hr as [u Hu]. rewrite Hd, lookup_empty in Hu.
    discriminate Hu.
  - split; [|intros _; now rewrite lookup_insert_eq].
    intros t i Ht.
    destruct (decide (getPatchKey type (identifierOf type entry) = getPatchKey t i))
      as [<- | Hne].
    + now rewrite lookup_insert_eq.
    + now rewrite lookup_insert_ne.
Qed.

(** X4. What is saved is what is read back: after a save, the effective
    record of the edited entry has, for every field the inputs change, the
    submitted value. *)
Theorem savePatch_then_resolve (st : State) (type : string) (entry : obj)
    (E : list (string * string)) :
  NoDup (map fst E) ->
  exists st',
    savePatch (openEditModal type entry st) E = Ok st' /\
    forall f v, retained entry E f v ->
      getEntryWithPatch st' type entry !! f = Some v.
Proof.
  intros Hnd.
  destruct (savePatch_open st type entry E)
    as (st' & Hs & _ & [(Hd & _) | (_ & Hp & _)]);
    exists st'; (split; [exact Hs|]); intros f v Hr.
  - apply collectPatch_changed in Hr as [u Hu]. rewrite Hd, lookup_empty in Hu.
    discriminate Hu.
  - unfold getEntryWithPatch. rewrite Hp, lookup_insert_eq.
    apply lookup_union_Some_l, lookup_union_Some_l.
    now apply collectPatch_retained.
Qed.

Lemma savePatch_then_resolve_witness :
  exists st',
    savePatch (openEditModal "glossary" entry_g1 st_none)
      [("form", "ama"); ("gloss", "love (intr.)"); ("pos", "v"); ("notes", "")]
    = Ok st' /\
    getEntryWithPatch st' "glossary" entry_g1 !! "gloss" = Some "love (intr.)".
Proof.
  destruct (savePatch_then_resolve st_none "glossary" entry_g1
              [("form", "ama"); ("gloss", "love (intr.)"); ("pos", "v"); ("notes", "")])
    as (st' & Hs & Hread).
  - repeat constructor; rewrite ?list_elem_of_In; simpl; intuition discriminate.
  - exists st'. split; [exact Hs|]. apply Hread.
    split; [right; left; reflexivity | discriminate].
Defined.

Lemma orEmpty_Some (u : string) : orEmpty (Some u) = u.
Proof.
  unfold orEmpty. simpl. destruct (String.eqb u "") eqn:E; simpl; [|reflexivity].
  apply String.eqb_eq in E. now subst.
Qed.

Lemma orEmpty_cases (v : option string) : orEmpty v = "" \/ v = Some (orEmpty v).
Proof. destruct v as [u|]; [right; now rewrite orEmpty_Some | now left]. Qed.

(** X5. A patched field cannot be reverted through the modal: when the
    value submitted for it is the original record's (or the field is not
    among the inputs), the save leaves the patched value in the effective
    record. *)
Theorem savePatch_keeps_patched_field (st : State) (type : string) (entry : obj)
    (E : list (string * string)) (p0 : gmap string string) (f u : string) :
  patches st !! getPatchKey type (identifierOf type entry) = Some p0 ->
  p0 !! f = Some u ->
  (forall v, In (f, v) E -> v = orEmpty (entry !! f)) ->
  exists st',
    savePatch (openEditModal type entry st) E = Ok st' /\
    getEntryWithPatch st' type entry !! f = Some u.
Proof.
  intros Hp0 Hf Hsame.
  destruct (savePatch_open st type entry E)
    as (st' & Hs & _ & [(_ & Hp & _) | (_ & Hp & _)]);
    exists st'; (split; [exact Hs|]); unfold getEntryWithPatch; rewrite Hp.
  - rewrite Hp0. now apply lookup_union_Some_l.
  - rewrite lookup_insert_eq, Hp0. simpl.
    apply lookup_union_Some_l. rewrite lookup_union_r; [exact Hf|].
    apply collectPatch_not_retained. intros v [Hin Hne]. now apply Hsame in Hin.
Qed.

(** The gloss of [g1] is patched; submitting the original gloss [love]
    leaves the patched gloss in place. *)
Lemma savePatch_keeps_patched_field_witness :
  exists st',
    savePatch (openEditModal "glossary" entry_g1 st_g1)
      [("form", "ama"); ("gloss", "love"); ("pos", "v"); ("notes", "")] = Ok st' /\
    getEntryWithPatch st' "glossary" entry_g1 !! "gloss" = Some "love (intr.)".
Proof.
  apply (savePatch_keeps_patched_field st_g1 "glossary" entry_g1
           [("form", "ama"); ("gloss", "love"); ("pos", "v"); ("notes", "")]
           patch_g1 "gloss" "love (intr.)").
  - reflexivity.
  - reflexivity.
  - intros v [[=] | [[= <-] | [[=] | [[=] | []]]]]. reflexivity.
Defined.

(** X6. Saving what the modal shows changes nothing in the store: when
    every submitted value is the effective record's value for its field (an
    absent field read as the empty text), the patch store after the save is
    the patch store before. *)
Theorem savePatch_effective_values (st : State) (type : string) (entry : obj)
    (E : list (string * string)) :
  (forall f v, In (f, v) E ->
     v = orEmpty (getEntryWithPatch st type entry !! f)) ->
  exists st',
    savePatch (openEditModal type entry st) E = Ok st' /\
    patches st' = patches st.
Proof.
  intros Heff.
  destruct (savePatch_open st type entry E)
    as (st' & Hs & _ & [(_ & Hp & _) | (Hd & Hp & _)]);
    exists st'; (split; [exact Hs|]); [exact Hp|].
  rewrite Hp. unfold getEntryWithPatch in Heff.
  destruct (patches st !! getPatchKey type (identifierOf type entry)) as [p0|] eqn:Hp0.
  - simpl. apply insert_id. rewrite Hp0. f_equal. apply map_eq. intros i.
    destruct (collectPatch entry E !! i) as [v|] eqn:Ei;
      [|now rewrite lookup_union_r].
    rewrite (lookup_union_Some_l _ _ _ _ Ei).
    apply collectPatch_sound in Ei as [Hin Hne].
    apply Heff in Hin. destruct (p0 !! i) as [u|] eqn:Eu.
    + rewrite (lookup_union_Some_l _ _ _ _ Eu), orEmpty_Some in Hin. now subst.
    + rewrite lookup_union_r in Hin by exact Eu. contradiction.
  - exfalso. apply Hd. now apply collectPatch_unchanged.
Qed.

Lemma savePatch_effective_values_witness :
  exists st',
    savePatch (openEditModal "glossary" entry_g1 st_g1)
      [("form", "ama"); ("gloss", "love (intr.)"); ("pos", "v"); ("notes", "")]
    = Ok st' /\
    patches st' = patches st_g1.
Proof.
  apply (savePatch_effective_values st_g1 "glossary" entry_g1).
  intros f v [[= <- <-] | [[= <- <-] | [[= <- <-] | [[= <- <-] | []]]]]; reflexivity.
Defined.

(** X7. The store and [localStorage] move together: a save whose inputs
    change no field writes nothing and leaves the store as it is; a save
    whose inputs change a field writes once, and what it writes is the new
    store. *)
Theorem savePatch_persists (st : State) (type : string) (entry : obj)
    (E : list (string * string)) :
  exists st',
    savePatch (openEditModal type entry st) E = Ok st' /\
    ((forall f v, ~ retained entry E f v) ->
     patches st' = patches st /\ storage st' = storage st) /\
    ((exists f v, retained entry E f v) ->
     storage st' = patches st' :: storage st).
Proof.
  destruct (savePatch_open st type entry E)
    as (st' & Hs & _ & [(Hd & Hp & Hst) | (Hd & Hp & Hst)]);
    exists st'; (split; [exact Hs|]); split; auto.
  - intros (f & v & Hr). apply collectPatch_changed in Hr as [u Hu].
    rewrite Hd, lookup_empty in Hu. discriminate Hu.
  - intros Hno. exfalso. apply Hd, map_empty. intros i.
    now apply collectPatch_not_retained.
Qed.

(** X8. [savePatch] throws exactly when no entry is being edited; a save
    that succeeds closes the modal, so a second save without reopening it
    throws. *)
Theorem savePatch_needs_editingEntry (st : State) (E : list (string * string)) :
  (savePatch st E = TypeError <-> editingEntry st = None) /\
  (forall st', savePatch st E = Ok st' ->
     editingEntry st' = None /\ forall E', savePatch st' E' = TypeError).
Proof.
  assert (Hnone : forall s E0, editingEntry s = None -> savePatch s E0 = TypeError).
  { intros s E0 H. unfold savePatch. now rewrite H. }
  split.
  - split; [|apply Hnone].
    destruct (editingEntry st) as [[type entry]|] eqn:He; [|reflexivity].
    destruct (savePatch_total st type entry E He) as [st' Hs].
    rewrite Hs. discriminate.
  - intros st' Hs.
    assert (He' : editingEntry st' = None).
    { destruct (editingEntry st) as [[type entry]|] eqn:He;
        [|rewrite (Hnone st E He) in Hs; discriminate Hs].
      destruct (savePatch_unfold st type entry E He) as [Hnil Hcons].
      destruct (decide (collectPatch entry E = ∅)) as [Hd | Hd].
      - rewrite (Hnil Hd) in Hs. now injection Hs as <-.
      - destruct (Hcons Hd) as (s2 & Hs2 & _ & _ & He2).
        rewrite Hs2 in Hs. now injection Hs as <-. }
    split; [exact He'|]. intros E'. now apply Hnone.
Qed.

(** X9. The patch of an unknown morpheme is shared by form: a save that
    gives the morpheme a gloss, not empty and not its own, makes every
    morpheme of the same form whose own gloss is another one count as
    resolved. *)
Theorem savePatch_resolves_same_form (st : State) (m : obj)
    (E : list (string * string)) (g : string) :
  NoDup (map fst E) ->
  In ("gloss", g) E ->
  g <> "" ->
  m !! "gloss" <> Some g ->
  exists st',
    savePatch (openEditModal "unknown" m st) E = Ok st' /\
    forall m' : obj,
      m' !! "form" = m !! "form" -> m' !! "gloss" <> Some g ->
      resolvedUnknown st' m'.
Proof.
  intros Hnd Hin Hg Hm.
  assert (Hr : retained m E "gloss" g).
  { split; [exact Hin|]. intros Heq.
    destruct (orEmpty_cases (m !! "gloss")) as [H | H]; congruence. }
  destruct (savePatch_open st "unknown" m E)
    as (st' & Hs & _ & [(Hd & _) | (_ & Hp & _)]);
    exists st'; (split; [exact Hs|]).
  - apply collectPatch_changed in Hr as [u Hu]. rewrite Hd, lookup_empty in Hu.
    discriminate Hu.
  - intros m' Hform Hgloss. exists g. split; [|split; assumption].
    unfold getEntryWithPatch.
    replace (identifierOf "unknown" m') with (identifierOf "unknown" m)
      by (unfold identifierOf; simpl; now rewrite Hform).
    rewrite Hp, lookup_insert_eq.
    apply lookup_union_Some_l, lookup_union_Some_l.
    now apply collectPatch_retained.
Qed.

(** The unknown morpheme [di] glossed [PAST]. *)
Lemma savePatch_resolves_same_form_witness :
  exists st',
    savePatch (openEditModal "unknown" morph_di st_none)
      [("form", "di"); ("gloss", "PAST"); ("pos", ""); ("notes", "")] = Ok st' /\
    resolvedUnknown st' morph_di.
Proof.
  destruct (savePatch_resolves_same_form st_none morph_di
              [("form", "di"); ("gloss", "PAST"); ("pos", ""); ("notes", "")] "PAST")
    as (st' & Hs & Hres).
  - repeat constructor; rewrite ?list_elem_of_In; simpl; intuition discriminate.
  - right. left. reflexivity.
  - discriminate.
  - discriminate.
  - exists st'. split; [exact Hs|]. apply Hres; [reflexivity | discriminate].
Defined.

(** X10. The kinds do not interfere: a save for an entry of one kind
    leaves the effective record of every entry of another kind as it was,
    whatever their identifiers. *)
Theorem savePatch_other_kind (st : State) (t1 t2 : string) (e1 : obj)
    (E : list (string * string)) :
  isKind t1 -> isKind t2 -> t1 <> t2 ->
  exists st',
    savePatch (openEditModal t1 e1 st) E = Ok st' /\
    forall e2 : obj, getEntryWithPatch st' t2 e2 = getEntryWithPatch st t2 e2.
Proof.
  intros H1 H2 Hne.
  destruct (savePatch_open st t1 e1 E)
    as (st' & Hs & _ & [(_ & Hp & _) | (_ & Hp & _)]);
    exists st'; (split; [exact Hs|]); intros e2;
    unfold getEntryWithPatch; rewrite Hp; [reflexivity|].
  rewrite lookup_insert_ne; [reflexivity|].
  now apply getPatchKey_kind_neq.
Qed.

(** The rule [r1] resolves as before after a save for the glossary entry
    [g1], whatever the inputs. *)
Lemma savePatch_other_kind_witness :
  exists st',
    savePatch (openEditModal "glossary" entry_g1 st_none) [("gloss", "x")] = Ok st' /\
    forall e2 : obj, getEntryWithPatch st' "rule" e2 = getEntryWithPatch st_none "rule" e2.
Proof.
  apply (savePatch_other_kind st_none "glossary" "rule" entry_g1 [("gloss", "x")]).
  - left. reflexivity.
  - right. left. reflexivity.
  - discriminate.
Defined.

Lemma getWordStatus_ext (st st' : State) (w : Word) :
  (forall m : obj, getEntryWithPatch st' "unknown" m = getEntryWithPatch st "unknown" m) ->
  getWordStatus st' w = getWordStatus st w.
Proof.
  intros H.
  assert (Hf : forall l, List.filter (unpatchedb st') l = List.filter (unpatchedb st) l).
  { intros l. apply filter_ext. intros m. unfold unpatchedb. now rewrite H. }
  set (body := fun u : obj -> bool =>
    let unknownMorphemes := List.filter isUnknownb (morphemes w) in
    let knownMorphemes := List.filter (fun m => negb (isUnknownb m)) (morphemes w) in
    let unpatchedUnknowns := List.filter u unknownMorphemes in
    if Nat.ltb 0 (length unpatchedUnknowns)
       && (Nat.ltb 0 (length knownMorphemes)
           || Nat.ltb (length unpatchedUnknowns) (length unknownMorphemes))
    then "mixed"
    else if Nat.ltb 0 (length unpatchedUnknowns) then "unknown"
    else if Nat.ltb (length unpatchedUnknowns) (length unknownMorphemes) then "patched"
    else "known").
  change (body (unpatchedb st') = body (unpatchedb st)).
  unfold body. cbv zeta. now rewrite Hf.
Qed.

(** X11. The status of a word depends on the patches of unknown morphemes
    only: a save for a glossary entry or a rule changes the status of no
    word. *)
Theorem savePatch_keeps_status (st : State) (type : string) (entry : obj)
    (E : list (string * string)) :
  type = "glossary" \/ type = "rule" ->
  exists st',
    savePatch (openEditModal type entry st) E = Ok st' /\
    forall w : Word, getWordStatus st' w = getWordStatus st w.
Proof.
  intros Hty.
  assert (Hk : isKind type) by (unfold isKind; tauto).
  assert (Hne : type <> "unknown") by (destruct Hty as [-> | ->]; discriminate).
  destruct (savePatch_open st type entry E)
    as (st' & Hs & _ & [(_ & Hp & _) | (_ & Hp & _)]);
    exists st'; (split; [exact Hs|]); intros w; apply getWordStatus_ext; intros m;
    unfold getEntryWithPatch; rewrite Hp; [reflexivity|].
  rewrite lookup_insert_ne; [reflexivity|].
  apply getPatchKey_kind_neq; [exact Hk | right; right; reflexivity | exact Hne].
Qed.

Lemma savePatch_keeps_status_witness :
  exists st',
    savePatch (openEditModal "glossary" entry_g1 st_none) [("gloss", "x")] = Ok st' /\
    forall w : Word, getWordStatus st' w = getWordStatus st_none w.
Proof.
  apply (savePatch_keeps_status st_none "glossary" entry_g1 [("gloss", "x")]).
  left. reflexivity.
Defined.

Lemma getWordStatus_cases (st : State) (w : Word) :
  exists bU bP bK : bool,
    (bU = true <-> hasUnresolvedUnknown st w) /\
    (bP = true <-> hasResolvedUnknown st w) /\
    (bK = true <-> hasKnown w) /\
    getWordStatus st w =
      if bU && (bK || bP) then "mixed"
      else if bU then "unknown"
      else if bP then "patched"
      else "known".
Proof.
  eexists _, _, _.
  split; [exact (hasUnpatched_iff st w)|].
  split; [exact (hasPatched_iff st w)|].
  split; [exact (hasKnown_iff w)|].
  reflexivity.
Qed.

(** X12. Without patches no word is [patched]: with an empty store the
    status is [known] when the word has no unknown morpheme, [unknown] when
    it has only unknown morphemes, and [mixed] when it has both. *)
Theorem getWordStatus_empty_store (st : State) (w : Word) :
  patches st = ∅ ->
  getWordStatus st w <> "patched" /\
  (getWordStatus st w = "known" <->
     forall m, In m (morphemes w) -> ~ isUnknown m) /\
  (getWordStatus st w = "unknown" <->
     morphemes w <> [] /\ forall m, In m (morphemes w) -> isUnknown m) /\
  (getWordStatus st w = "mixed" <->
     (exists m, In m (morphemes w) /\ isUnknown m) /\ hasKnown w).
Proof.
  intros Hempty.
  assert (Hnores : forall m, ~ resolvedUnknown st m).
  { intros m (g & Hg & _ & Hne). unfold getEntryWithPatch in Hg.
    rewrite Hempty, lookup_empty in Hg. congruence. }
  assert (HR : ~ hasResolvedUnknown st w).
  { intros (m & _ & _ & Hr). exact (Hnores m Hr). }
  assert (HU : hasUnresolvedUnknown st w <-> exists m, In m (morphemes w) /\ isUnknown m).
  { unfold hasUnresolvedUnknown. split.
    - intros (m & Hin & Hu & _). eauto.
    - intros (m & Hin & Hu). exists m. repeat split; auto. }
  assert (HallK : (forall m, In m (morphemes w) -> ~ isUnknown m) <->
                  ~ exists m, In m (morphemes w) /\ isUnknown m).
  { split.
    - intros H (m & Hin & Hu). exact (H m Hin Hu).
    - intros H m Hin Hu. apply H. eauto. }
  assert (HallU : (morphemes w <> [] /\ forall m, In m (morphemes w) -> isUnknown m) <->
                  (exists m, In m (morphemes w) /\ isUnknown m) /\ ~ hasKnown w).
  { unfold hasKnown. split.
    - intros [Hne Hall]. split.
      + destruct (morphemes w) as [|m l]; [congruence|].
        exists m. split; [now left | apply Hall; now left].
      + intros (m & Hin & Hn). exact (Hn (Hall m Hin)).
    - intros [(m0 & Hin0 & _) Hk]. split.
      + intros Hnil. rewrite Hnil in Hin0. destruct Hin0.
      + intros m Hin. unfold isUnknown.
        destruct (decide (m !! "type" = Some "unknown")) as [Hd | Hd]; [exact Hd|].
        exfalso. apply Hk. exists m. split; assumption. }
  rewrite HallK, HallU, <- HU.
  destruct (getWordStatus_cases st w) as (bU & bP & bK & HUb & HPb & HKb & ->).
  destruct bP; [exfalso; apply HR, HPb; reflexivity|].
  destruct bU, bK; simpl;
    (split; [discriminate|]);
    intuition (try discriminate; try congruence).
Qed.

Lemma getWordStatus_empty_store_witness :
  getWordStatus st_none word_amadi <> "patched".
Proof.
  destruct (getWordStatus_empty_store st_none word_amadi eq_refl) as [H _].
  exact H.
Defined.

(** ** More on [getMorphemeEntries] *)

Lemma findById_Some (l : list obj) (id : option string) (e : obj) :
  findById l id = Some e -> In e l /\ e !! "id" = id.
Proof.
  intros H. apply find_some in H as [Hin Hb].
  split; [exact Hin | now apply bool_decide_eq_true in Hb].
Qed.

Lemma mapR_TypeError_iff {A B : Type} (f : A -> result B) (l : list A) :
  mapR f l = TypeError <-> exists x, In x l /\ f x = TypeError.
Proof.
  induction l as [|x l IH]; simpl.
  - split; [discriminate | intros (x & [] & _)].
  - destruct (f x) as [y|] eqn:Ex; simpl.
    + destruct (mapR f l) as [r|] eqn:Er; simpl.
      * split; [discriminate|].
        intros (z & [<- | Hz] & Hf); [congruence|].
        assert (Hex : exists x0, In x0 l /\ f x0 = TypeError) by eauto.
        apply IH in Hex. discriminate Hex.
      * split; [|reflexivity]. intros _.
        destruct (proj1 IH eq_refl) as (z & Hz & Hf). eauto.
    + split; [|reflexivity]. intros _. eauto.
Qed.

(** X13. With both documents loaded, [getMorphemeEntries] returns the
    morphemes of the word in their order, each with what it refers to: an
    object of type [glossary] (or [rule]) carries an entry of the document
    whose id is the morpheme's [source_id], together with the effective
    record of that entry; an object of type [unknown] carries no entry. *)
Theorem getMorphemeEntries_resolves (st : State) (g : GlossaryDocument.t)
    (r : RuleDocument.t) (w : Word) :
  glossary st = Some g ->
  rules st = Some r ->
  exists res : list MorphemeEntry,
    getMorphemeEntries st (Some w) = Ok res /\
    Forall2 (fun (m : obj) (y : MorphemeEntry) =>
      me_morpheme y = m /\
      ((me_type y = "glossary" /\ m !! "source_type" = Some "glossary" /\
        exists e, In e (GlossaryDocument.entries g) /\ e !! "id" = m !! "source_id" /\
                  me_originalEntry y = Some e /\
                  me_entry y = Some (getEntryWithPatch st "glossary" e)) \/
       (me_type y = "rule" /\ m !! "source_type" = Some "rule" /\
        exists e, In e (RuleDocument.rules r) /\ e !! "id" = m !! "source_id" /\
                  me_originalEntry y = Some e /\
                  me_entry y = Some (getEntryWithPatch st "rule" e)) \/
       (me_type y = "unknown" /\ me_originalEntry y = None /\ me_entry y = None)))
      (morphemes w) res.
Proof.
  intros Hg Hr.
  destruct (mapR_total (morphemeEntry st) (morphemes w)) as (res & Hres & HF).
  { intros m _. exact (morphemeEntry_total st g r m Hg Hr). }
  exists res. split; [exact Hres|].
  eapply Forall2_impl; [exact HF|]. clear HF Hres. intros m y Hm. simpl in Hm.
  unfold morphemeEntry in Hm. rewrite Hg, Hr in Hm.
  case_bool_decide as Hty1.
  - destruct (findById _ _) as [e|] eqn:Ef; injection Hm as <-; simpl;
      (split; [reflexivity|]).
    + apply findById_Some in Ef as [Hin Hid]. left. eauto 10.
    + right. right. auto.
  - case_bool_decide as Hty2.
    + destruct (findById _ _) as [e|] eqn:Ef; injection Hm as <-; simpl;
        (split; [reflexivity|]).
      * apply findById_Some in Ef as [Hin Hid]. right. left. eauto 10.
      * right. right. auto.
    + injection Hm as <-. simpl. split; [reflexivity|]. right. right. auto.
Qed.

Lemma getMorphemeEntries_resolves_witness :
  exists res : list MorphemeEntry,
    getMorphemeEntries st_docs (Some word_b_r99) = Ok res /\
    length res = 2%nat.
Proof.
  destruct (getMorphemeEntries_resolves st_docs
              {| GlossaryDocument.entries := [entry_a; entry_b] |}
              {| RuleDocument.rules := [rule_r1] |} word_b_r99 eq_refl eq_refl)
    as (res & Hres & HF).
  exists res. split; [exact Hres|].
  symmetry. exact (Forall2_length _ _ _ HF).
Defined.

(** X14. [getMorphemeEntries] throws exactly when some morpheme of the
    word refers to a document that is not loaded; without a word it returns
    the empty list. *)
Theorem getMorphemeEntries_throws_iff (st : State) (w : Word) :
  getMorphemeEntries st None = Ok [] /\
  (getMorphemeEntries st (Some w) = TypeError <->
   exists m, In m (morphemes w) /\
     ((m !! "source_type" = Some "glossary" /\ glossary st = None) \/
      (m !! "source_type" = Some "rule" /\ rules st = None))).
Proof.
  split; [reflexivity|]. simpl. rewrite mapR_TypeError_iff.
  assert (Hm : forall m, morphemeEntry st m = TypeError <->
            (m !! "source_type" = Some "glossary" /\ glossary st = None) \/
            (m !! "source_type" = Some "rule" /\ rules st = None)).
  { intros m. unfold morphemeEntry.
    case_bool_decide as H1.
    - destruct (glossary st) as [g|].
      + destruct (findById _ _); split; try discriminate;
          intros [[_ H] | [H _]]; congruence.
      + split; [intros _; left; auto | reflexivity].
    - case_bool_decide as H2.
      + destruct (rules st) as [r|].
        * destruct (findById _ _); split; try discriminate;
            intros [[H _] | [_ H]]; congruence.
        * split; [intros _; right; auto | reflexivity].
      + split; [discriminate | intros [[H _] | [H _]]; congruence]. }
  split; intros (m & Hin & H); exists m; (split; [exact Hin|]); now apply Hm.
Qed.

(** ** [getWordGloss] *)

Lemma morphemeEntry_gloss (st : State) (g : GlossaryDocument.t) (r : RuleDocument.t)
    (m : obj) (y : MorphemeEntry) :
  glossary st = Some g -> rules st = Some r ->
  morphemeEntry st m = Ok y -> morphemeGloss st m = entryGloss st y.
Proof.
  intros Hg Hr Hm. unfold morphemeEntry in Hm.
  unfold morphemeGloss, sourceGloss, entryGloss. rewrite Hg, Hr in *.
  case_bool_decide as H1.
  - destruct (findById _ _); injection Hm as <-; reflexivity.
  - case_bool_decide as H2.
    + destruct (findById _ _); injection Hm as <-; reflexivity.
    + injection Hm as <-. reflexivity.
Qed.

(** X15. The gloss of a word and the sidebar agree: with both documents
    loaded, [getWordGloss] is the join, with [" + "], of the glosses that go
    with the objects of [getMorphemeEntries], the effective gloss of the
    entry for a morpheme that resolves and the gloss of the unknown-patch
    check for one that does not. *)
Theorem getWordGloss_agrees (st : State) (g : GlossaryDocument.t)
    (r : RuleDocument.t) (w : Word) :
  glossary st = Some g ->
  rules st = Some r ->
  exists res : list MorphemeEntry,
    getMorphemeEntries st (Some w) = Ok res /\
    getWordGloss st w = join " + " (map (entryGloss st) res).
Proof.
  intros Hg Hr.
  destruct (mapR_total (morphemeEntry st) (morphemes w)) as (res & Hres & HF).
  { intros m _. exact (morphemeEntry_total st g r m Hg Hr). }
  exists res. split; [exact Hres|].
  unfold getWordGloss. f_equal. clear Hres.
  induction HF as [|m y l k Hm HF IH]; simpl; [reflexivity|].
  now rewrite IH, (morphemeEntry_gloss st g r m y Hg Hr Hm).
Qed.

(** The word [ama] whose morpheme refers to the patched entry [g1] shows
    the patched gloss. *)
Lemma getWordGloss_agrees_witness :
  exists res : list MorphemeEntry,
    getMorphemeEntries st_docs_g1 (Some {| word := "ama"; morphemes := [morph_ama] |})
      = Ok res /\
    getWordGloss st_docs_g1 {| word := "ama"; morphemes := [morph_ama] |}
      = join " + " (map (entryGloss st_docs_g1) res).
Proof.
  exact (getWordGloss_agrees st_docs_g1
           {| GlossaryDocument.entries := [entry_g1] |}
           {| RuleDocument.rules := [rule_r1] |}
           {| word := "ama"; morphemes := [morph_ama] |} eq_refl eq_refl).
Defined.




Example getWordGloss_examples :
  getWordGloss st_none word_amadi = "love + ?" /\
  getWordGloss st_past word_amadi = "love + PAST" /\
  getWordGloss st_docs_g1 {| word := "ama"; morphemes := [morph_ama] |} = "love (intr.)" /\
  join " + " [None; Some "x"] = " + x".
Proof. repeat split; reflexivity. Qed.

(** ** [filterAlignments] *)

Lemma withIndexFrom_In (n : nat) (l : list AlignmentLine.t) (il : IndexedLine) :
  In il (withIndexFrom n l) <->
  exists i, l !! i = Some (line il) /\ originalIndex il = (n + i)%nat.
Proof.
  revert n. induction l as [|x l IH]; intros n; simpl.
  - split; [intros [] | intros (i & Hi & _); discriminate Hi].
  - rewrite IH. split.
    + intros [<- | (i & Hi & Hn)].
      * exists 0%nat. simpl. split; [reflexivity | lia].
      * exists (S i). simpl. split; [exact Hi | lia].
    + intros ([|i] & Hi & Hn); simpl in Hi.
      * left. destruct il as [ln ix]. simpl in *. injection Hi as <-.
        f_equal. lia.
      * right. exists i. split; [exact Hi | lia].
Qed.

Lemma withIndexFrom_line (n : nat) (l : list AlignmentLine.t) :
  map line (withIndexFrom n l) = l.
Proof. revert n. induction l as [|x l IH]; intros n; simpl; [|rewrite IH]; reflexivity. Qed.

Lemma withIndexFrom_index (n : nat) (l : list AlignmentLine.t) :
  map originalIndex (withIndexFrom n l) = seq n (length l).
Proof. revert n. induction l as [|x l IH]; intros n; simpl; [|rewrite IH]; reflexivity. Qed.

Lemma withIndexFrom_filter_sorted (keep : IndexedLine -> bool) (n : nat)
    (l : list AlignmentLine.t) :
  StronglySorted lt (map originalIndex (List.filter keep (withIndexFrom n l))).
Proof.
  revert n. induction l as [|x l IH]; intros n; simpl; [constructor|].
  destruct (keep _); [|apply IH]. simpl. constructor; [apply IH|].
  apply List.Forall_forall. intros i Hi. apply in_map_iff in Hi as (il & <- & Hil).
  apply filter_In in Hil as [Hil _].
  apply withIndexFrom_In in Hil as (j & _ & ->). lia.
Qed.

Lemma filterR_TypeError_iff {A : Type} (f : A -> result bool) (l : list A) :
  filterR f l = TypeError <-> exists x, In x l /\ f x = TypeError.
Proof.
  induction l as [|x l IH]; simpl.
  - split; [discriminate | intros (x & [] & _)].
  - destruct (f x) as [b|] eqn:Ex; simpl.
    + destruct (filterR f l) as [r|] eqn:Er; simpl.
      * split; [discriminate|].
        intros (z & [<- | Hz] & Hf); [congruence|].
        assert (Hex : exists x0, In x0 l /\ f x0 = TypeError) by eauto.
        apply IH in Hex. discriminate Hex.
      * split; [|reflexivity]. intros _.
        destruct (proj1 IH eq_refl) as (z & Hz & Hf). eauto.
    + split; [|reflexivity]. intros _. eauto.
Qed.

Section AlignmentFacts.

Variable toLowerCase : string -> string.

Lemma lineMatch_ok (query : string) (il : IndexedLine) :
  is_Some (AlignmentLine.source_line (line il)) ->
  is_Some (AlignmentLine.target_line (line il)) ->
  lineMatch toLowerCase query il = Ok (lineMatchb toLowerCase query il).
Proof.
  intros [s Hs] [t Ht]. unfold lineMatch, lineMatchb. rewrite Hs, Ht. simpl.
  destruct (negb (String.eqb query "")); simpl; [|reflexivity].
  destruct (includes (toLowerCase s) query); reflexivity.
Qed.

Lemma lineMatchb_iff (q : string) (il : IndexedLine) :
  is_Some (AlignmentLine.source_line (line il)) ->
  is_Some (AlignmentLine.target_line (line il)) ->
  lineMatchb toLowerCase (toLowerCase q) il = true <->
  lineMatches toLowerCase q (line il).
Proof.
  intros [s Hs] [t Ht]. unfold lineMatchb, lineMatches. rewrite Hs, Ht. simpl.
  rewrite !orb_true_iff, negb_involutive, String.eqb_eq. split.
  - intros [[H | H] | H]; [now left | right; exists s | right; exists t]; auto.
  - intros [H | (u & Hu & H)]; [auto|].
    destruct Hu as [Hu | Hu]; injection Hu as <-; auto.
Qed.

(** X17. [filterAlignments] keeps the lines that match and renumbers
    nothing: on a document whose lines have a source and a target text, a
    pair [{line, originalIndex}] is returned exactly when the line stands at
    that index of the document and matches the query, and the pairs come by
    strictly increasing index. *)
Theorem filterAlignments_keeps_index (app : AppState) (doc : AlignmentDocument.t) :
  alignments app = Some doc ->
  Forall (fun l => is_Some (AlignmentLine.source_line l) /\
                   is_Some (AlignmentLine.target_line l))
         (AlignmentDocument.alignments doc) ->
  exists res : list IndexedLine,
    filterAlignments toLowerCase app = Ok res /\
    (forall il, In il res <->
       AlignmentDocument.alignments doc !! originalIndex il = Some (line il) /\
       lineMatches toLowerCase (searchQuery app) (line il)) /\
    StronglySorted lt (map originalIndex res).
Proof.
  intros Hdoc Hwf. rewrite List.Forall_forall in Hwf.
  assert (Hwf' : forall il, In il (withIndexFrom 0 (AlignmentDocument.alignments doc)) ->
            is_Some (AlignmentLine.source_line (line il)) /\
            is_Some (AlignmentLine.target_line (line il))).
  { intros il Hil. apply withIndexFrom_In in Hil as (i & Hi & _).
    apply Hwf. apply list_elem_of_In. eapply list_elem_of_lookup_2. exact Hi. }
  exists (List.filter (lineMatchb toLowerCase (toLowerCase (searchQuery app)))
            (withIndexFrom 0 (AlignmentDocument.alignments doc))).
  split; [|split].
  - unfold filterAlignments. rewrite Hdoc. cbv zeta. apply filterR_pure.
    intros il Hil. destruct (Hwf' il Hil). now apply lineMatch_ok.
  - intros il. rewrite filter_In, withIndexFrom_In. split.
    + intros [(i & Hi & Hn) Hk]. simpl in Hn. rewrite Hn.
      split; [exact Hi|].
      assert (Hil : In il (withIndexFrom 0 (AlignmentDocument.alignments doc)))
        by (apply withIndexFrom_In; eauto).
      destruct (Hwf' il Hil). now apply lineMatchb_iff.
    + intros [Hi Hm].
      assert (Hex : exists i, AlignmentDocument.alignments doc !! i = Some (line il) /\
                              originalIndex il = (0 + i)%nat) by eauto.
      split; [exact Hex|].
      destruct (Hwf' il (proj2 (withIndexFrom_In _ _ _) Hex)).
      now apply lineMatchb_iff.
  - apply withIndexFrom_filter_sorted.
Qed.

(** X18. The edges of [filterAlignments]: without a document the result
    is empty; with an empty query every line comes back under its index,
    whether or not it has its texts; and the call throws exactly when the
    query is not empty and some line has no source text or, its source text
    not containing the query, no target text. *)
Theorem filterAlignments_edges (app : AppState) :
  (alignments app = None -> filterAlignments toLowerCase app = Ok []) /\
  (forall doc, alignments app = Some doc ->
     toLowerCase (searchQuery app) = "" ->
     exists res, filterAlignments toLowerCase app = Ok res /\
       map line res = AlignmentDocument.alignments doc /\
       map originalIndex res = seq 0 (length (AlignmentDocument.alignments doc))) /\
  (filterAlignments toLowerCase app = TypeError <->
   exists doc l,
     alignments app = Some doc /\ In l (AlignmentDocument.alignments doc) /\
     toLowerCase (searchQuery app) <> "" /\
     (AlignmentLine.source_line l = None \/
      (AlignmentLine.target_line l = None /\
       exists s, AlignmentLine.source_line l = Some s /\
         includes (toLowerCase s) (toLowerCase (searchQuery app)) = false))).
Proof.
  unfold filterAlignments. split; [intros ->; reflexivity|]. split.
  - intros doc -> Hq. cbv zeta. rewrite Hq.
    exists (withIndexFrom 0 (AlignmentDocument.alignments doc)).
    split; [|split; [apply withIndexFrom_line | apply withIndexFrom_index]].
    rewrite (filterR_pure _ (fun _ => true)); [now rewrite filter_all|].
    intros il _. reflexivity.
  - assert (Hm : forall q il, lineMatch toLowerCase q il = TypeError <->
              q <> "" /\
              (AlignmentLine.source_line (line il) = None \/
               (AlignmentLine.target_line (line il) = None /\
                exists s, AlignmentLine.source_line (line il) = Some s /\
                  includes (toLowerCase s) q = false))).
    { intros q il. unfold lineMatch. simpl.
      destruct (String.eqb q "") eqn:Eq; simpl.
      - apply String.eqb_eq in Eq. split; [discriminate | intros [H _]; contradiction].
      - apply String.eqb_neq in Eq.
        destruct (AlignmentLine.source_line (line il)) as [s|]; simpl.
        + destruct (includes (toLowerCase s) q) eqn:Ei.
          * split; [discriminate|].
            intros [_ [H | (_ & s' & [= <-] & H)]]; congruence.
          * destruct (AlignmentLine.target_line (line il)) as [t|]; simpl.
            -- split; [discriminate|].
               intros [_ [H | (H & _)]]; discriminate H.
            -- split; [|reflexivity]. intros _. split; [exact Eq|]. right. eauto.
        + split; [|reflexivity]. intros _. split; [exact Eq|]. now left. }
    destruct (alignments app) as [doc|].
    + cbv zeta. rewrite filterR_TypeError_iff. split.
      * intros (il & Hil & Hf). apply Hm in Hf as [Hq Hl].
        exists doc, (line il). split; [reflexivity|]. split; [|split; assumption].
        apply withIndexFrom_In in Hil as (i & Hi & _).
        apply list_elem_of_In. eapply list_elem_of_lookup_2. exact Hi.
      * intros (doc' & l & [= <-] & Hl & Hq & Hcase).
        apply list_elem_of_In, list_elem_of_lookup_1 in Hl as [i Hi].
        exists {| line := l; originalIndex := i |}. split.
        -- apply withIndexFrom_In. exists i. simpl. auto.
        -- apply Hm. simpl. auto.
    + split; [discriminate | intros (doc & l & H & _); discriminate H].
Qed.

End AlignmentFacts.

Lemma wf_app_lines :
  Forall (fun l => is_Some (AlignmentLine.source_line l) /\
                   is_Some (AlignmentLine.target_line l))
         [line_1; line_2; line_3].
Proof. repeat constructor; eexists; reflexivity. Qed.

(** The query [LOVE] on three lines keeps the first and the third, under
    the indices 0 and 2. *)
Lemma filterAlignments_keeps_index_witness :
  exists res : list IndexedLine,
    filterAlignments asciiToLowerCase app_lines = Ok res /\
    (forall il, In il res <->
       [line_1; line_2; line_3] !! originalIndex il = Some (line il) /\
       lineMatches asciiToLowerCase "LOVE" (line il)) /\
    StronglySorted lt (map originalIndex res).
Proof.
  exact (filterAlignments_keeps_index asciiToLowerCase app_lines
           {| AlignmentDocument.alignments := [line_1; line_2; line_3] |}
           eq_refl wf_app_lines).
Defined.

Example filterAlignments_example :
  filterAlignments asciiToLowerCase app_lines =
    Ok [ {| line := line_1; originalIndex := 0 |};
         {| line := line_3; originalIndex := 2 |} ].
Proof. reflexivity. Qed.

(** ** The rule view on complete rules *)

Lemma ruleMatchb_iff (toLowerCase : string -> string) (st : State) (e : obj) :
  is_Some (e !! "form") -> is_Some (e !! "gloss") -> is_Some (e !! "description") ->
  ruleMatchb toLowerCase st (toLowerCase (sidebarSearch st)) e = true <->
  matchesQuery toLowerCase ["form"; "gloss"; "description"] st "rule" (sidebarSearch st) e.
Proof.
  intros Hf Hg Hd.
  apply (getEntryWithPatch_is_Some st "rule") in Hf as [f Hf].
  apply (getEntryWithPatch_is_Some st "rule") in Hg as [g Hg].
  apply (getEntryWithPatch_is_Some st "rule") in Hd as [d Hd].
  unfold ruleMatchb, matchesQuery. cbv zeta. rewrite Hf, Hg, Hd. simpl.
  rewrite !orb_true_iff. split.
  - intros [[H | H] | H];
      [exists "form", f | exists "gloss", g | exists "description", d]; simpl; auto.
  - intros (k & s & Hk & Hs & Hinc).
    destruct Hk as [<- | [<- | [<- | []]]]; [left; left | left; right | right];
      congruence.
Qed.

(** X19. On a loaded rule document whose rules have a form, a gloss and a
    description, the rule view returns every rule in scope that matches the
    query on its effective form, gloss or description, none cut off, sorted
    ascending by the rules' own form. *)
Theorem getFilteredRules_sorted_all
    (toLowerCase : string -> string) (localeCompare : string -> string -> Z)
    (st : State) (r : RuleDocument.t) :
  (forall a b, 0 < localeCompare a b -> localeCompare b a <= 0) ->
  rules st = Some r ->
  Forall (fun e : obj => is_Some (e !! "form") /\ is_Some (e !! "gloss") /\
                         is_Some (e !! "description"))
         (RuleDocument.rules r) ->
  exists (res : list obj) (keep : obj -> bool),
    getFilteredRules toLowerCase localeCompare st = Ok res /\
    Permutation (List.filter keep (RuleDocument.rules r)) res /\
    (forall e, In e (RuleDocument.rules r) ->
       (keep e = true <->
        inScope "rule" (selectedWord st) e /\
        inQuery toLowerCase ["form"; "gloss"; "description"] st "rule" e)) /\
    Sorted (fun a b => byForm localeCompare a b <= 0) res.
Proof.
  intros Htotal Hr Hwf. rewrite List.Forall_forall in Hwf.
  exists (sortPure (byForm localeCompare)
            (List.filter (keepRule toLowerCase st) (RuleDocument.rules r))),
         (keepRule toLowerCase st).
  split; [|split; [|split]].
  - apply getFilteredRules_wf; [exact Hr | intros e He _; now apply Hwf].
  - apply sortPure_perm.
  - intros e He. destruct (Hwf e He) as (Hf & Hg & Hd).
    unfold keepRule, inQuery.
    rewrite andb_true_iff, orb_true_iff, inScopeb_iff,
      (ruleMatchb_iff toLowerCase st e Hf Hg Hd).
    simpl. rewrite negb_involutive, String.eqb_eq. reflexivity.
  - apply sortPure_sorted. intros a b. apply Htotal.
Qed.

Lemma getFilteredRules_sorted_all_witness :
  exists (res : list obj) (keep : obj -> bool),
    getFilteredRules asciiToLowerCase ordinalCompare st_rules_ab = Ok res /\
    Permutation (List.filter keep [rule_b; rule_a]) res /\
    (forall e, In e [rule_b; rule_a] ->
       (keep e = true <->
        inScope "rule" None e /\
        inQuery asciiToLowerCase ["form"; "gloss"; "description"] st_rules_ab "rule" e)) /\
    Sorted (fun a b => byForm ordinalCompare a b <= 0) res.
Proof.
  apply (getFilteredRules_sorted_all asciiToLowerCase ordinalCompare st_rules_ab
           {| RuleDocument.rules := [rule_b; rule_a] |} ordinalCompare_total eq_refl).
  repeat constructor; eexists; reflexivity.
Defined.

Example getFilteredRules_example :
  getFilteredRules asciiToLowerCase ordinalCompare st_rules_ab = Ok [rule_a; rule_b].
Proof. reflexivity. Qed.

(** ** [shortGloss] *)

Lemma length_append (a b : string) :
  String.length (a +:+ b) = (String.length a + String.length b)%nat.
Proof. induction a as [|c a IH]; simpl; [reflexivity | now rewrite IH]. Qed.

Lemma length_substring_0 (n : nat) (s : string) :
  String.length (String.substring 0 n s) = Nat.min n (String.length s).
Proof.
  revert s. induction n as [|n IH]; intros s; destruct s as [|c s]; simpl;
    try reflexivity.
  now rewrite IH.
Qed.

Lemma prefix_substring_0 (n : nat) (s : string) :
  String.prefix (String.substring 0 n s) s = true.
Proof.
  revert s. induction n as [|n IH]; intros s; destruct s as [|c s]; simpl;
    try reflexivity.
  rewrite IH. now destruct (ascii_dec c c).
Qed.

(** X20. The gloss shown on a word chip never has more than 13
    characters: a gloss of up to 13 characters is shown whole, a longer one
    as its first 10 characters followed by three dots. *)
Theorem shortGloss_bound (gloss : string) :
  (String.length (shortGloss gloss) <= 13)%nat /\
  ((String.length gloss <= 13)%nat -> shortGloss gloss = gloss) /\
  ((13 < String.length gloss)%nat ->
   exists head, shortGloss gloss = head +:+ "..." /\
     String.length head = 10%nat /\ String.prefix head gloss = true).
Proof.
  unfold shortGloss.
  destruct (Nat.ltb 13 (String.length gloss)) eqn:E.
  - apply Nat.ltb_lt in E. split; [|split].
    + rewrite length_append, length_substring_0.
      change (String.length "...") with 3%nat. lia.
    + lia.
    + intros _. exists (String.substring 0 10 gloss).
      split; [reflexivity|]. split; [|apply prefix_substring_0].
      rewrite length_substring_0. lia.
  - apply Nat.ltb_ge in E. split; [exact E|]. split; [reflexivity | lia].
Qed.

Example shortGloss_examples :
  shortGloss "love (intr.)" = "love (intr.)" /\
  shortGloss "love + PAST + PL" = "love + PAS...".
Proof. split; reflexivity. Qed.

(** ** [reset] *)

(** X21. [reset] unloads the documents and keeps the edits: afterwards
    the data counts as not loaded and the three views are empty, while the
    patch store, what was written to [localStorage], the effective record of
    every entry and the status of every word are what they were. *)
Theorem reset_keeps_patches
    (toLowerCase : string -> string) (localeCompare : string -> string -> Z)
    (app : AppState) :
  isDataLoaded (reset app) = false /\
  filterAlignments toLowerCase (reset app) = Ok [] /\
  getFilteredGlossary toLowerCase localeCompare (core (reset app)) = Ok [] /\
  getFilteredRules toLowerCase localeCompare (core (reset app)) = Ok [] /\
  patches (core (reset app)) = patches (core app) /\
  storage (core (reset app)) = storage (core app) /\
  (forall type e, getEntryWithPatch (core (reset app)) type e =
                  getEntryWithPatch (core app) type e) /\
  (forall w, getWordStatus (core (reset app)) w = getWordStatus (core app) w).
Proof.
  repeat split; try reflexivity.
Qed.

(** ** Saves in sequence *)

(** The patch store after a save, as one expression. *)
Lemma savePatch_open_patches (st : State) (type : string) (entry : obj)
    (E : list (string * string)) :
  exists st',
    savePatch (openEditModal type entry st) E = Ok st' /\
    patches st' =
      if decide (collectPatch entry E = ∅) then patches st
      else <[getPatchKey type (identifierOf type entry) :=
               collectPatch entry E
               ∪ default ∅ (patches st !! getPatchKey type (identifierOf type entry))]>
             (patches st).
Proof.
  destruct (savePatch_open st type entry E)
    as (st' & Hs & _ & [(Hd & Hp & _) | (Hd & Hp & _)]);
    exists st'; (split; [exact Hs|]); now rewrite decide_bool_decide,
      ?(bool_decide_eq_true_2 _ Hd), ?(bool_decide_eq_false_2 _ Hd).
Qed.

(** An entry that [hasPatched] does not flag is shown as it is: when
    [hasPatched] is false for the entry's identifier, the effective record
    is the entry itself; so an effective record that differs from its entry
    is always flagged. *)
Theorem hasPatched_false_unchanged (st : State) (type : string) (entry : obj) :
  hasPatched st type (identifierOf type entry) = false ->
  getEntryWithPatch st type entry = entry.
Proof.
  unfold hasPatched, getEntryWithPatch.
  destruct (patches st !! _); [discriminate | reflexivity].
Qed.

Lemma hasPatched_false_unchanged_witness :
  getEntryWithPatch st_g1 "rule" rule_r1 = rule_r1.
Proof.
  apply (hasPatched_false_unchanged st_g1 "rule" rule_r1). reflexivity.
Defined.

(** X22. Saving the same inputs twice is saving them once: the second
    save, after the modal is opened again on the same entry, leaves the
    patch store of the first. *)
Theorem savePatch_twice (st : State) (type : string) (entry : obj)
    (E : list (string * string)) :
  exists st1 st2,
    savePatch (openEditModal type entry st) E = Ok st1 /\
    savePatch (openEditModal type entry st1) E = Ok st2 /\
    patches st2 = patches st1.
Proof.
  destruct (savePatch_open_patches st type entry E) as (st1 & Hs1 & Hp1).
  destruct (savePatch_open_patches st1 type entry E) as (st2 & Hs2 & Hp2).
  exists st1, st2. split; [exact Hs1|]. split; [exact Hs2|].
  rewrite Hp2. destruct (decide (collectPatch entry E = ∅)) as [Hd | Hd];
    [reflexivity|].
  rewrite Hp1, lookup_insert_eq, insert_insert_eq. simpl.
  now rewrite (assoc_L (∪)), (idemp_L (∪)).
Qed.

(** X23. Edits of one entry that change disjoint sets of fields commute:
    saved in either order they leave the same patch store. *)
Theorem savePatch_commutes (st : State) (type : string) (entry : obj)
    (E1 E2 : list (string * string)) :
  (forall f v1 v2, retained entry E1 f v1 -> ~ retained entry E2 f v2) ->
  exists s1 s12 s2 s21,
    savePatch (openEditModal type entry st) E1 = Ok s1 /\
    savePatch (openEditModal type entry s1) E2 = Ok s12 /\
    savePatch (openEditModal type entry st) E2 = Ok s2 /\
    savePatch (openEditModal type entry s2) E1 = Ok s21 /\
    patches s12 = patches s21.
Proof.
  intros Hdisj.
  assert (Hd : collectPatch entry E1 ##ₘ collectPatch entry E2).
  { apply map_disjoint_spec. intros f v1 v2 H1 H2.
    apply collectPatch_sound in H1, H2. exact (Hdisj f v1 v2 H1 H2). }
  destruct (savePatch_open_patches st type entry E1) as (s1 & Hs1 & Hp1).
  destruct (savePatch_open_patches s1 type entry E2) as (s12 & Hs12 & Hp12).
  destruct (savePatch_open_patches st type entry E2) as (s2 & Hs2 & Hp2).
  destruct (savePatch_open_patches s2 type entry E1) as (s21 & Hs21 & Hp21).
  exists s1, s12, s2, s21. repeat (split; [assumption|]).
  rewrite Hp12, Hp21, Hp1, Hp2.
  destruct (decide (collectPatch entry E1 = ∅)) as [H1 | H1];
    destruct (decide (collectPatch entry E2 = ∅)) as [H2 | H2];
    try reflexivity.
  rewrite !lookup_insert_eq, !insert_insert_eq. simpl. f_equal.
  rewrite !(assoc_L (∪)). f_equal. now apply map_union_comm.
Qed.

(** The entry [g1] edited in [pos] and in [notes], in both orders. *)
Lemma savePatch_commutes_witness :
  exists s1 s12 s2 s21,
    savePatch (openEditModal "glossary" entry_g1 st_g1) [("pos", "verb")] = Ok s1 /\
    savePatch (openEditModal "glossary" entry_g1 s1) [("notes", "n")] = Ok s12 /\
    savePatch (openEditModal "glossary" entry_g1 st_g1) [("notes", "n")] = Ok s2 /\
    savePatch (openEditModal "glossary" entry_g1 s2) [("pos", "verb")] = Ok s21 /\
    patches s12 = patches s21.
Proof.
  apply (savePatch_commutes st_g1 "glossary" entry_g1 [("pos", "verb")] [("notes", "n")]).
  intros f v1 v2 [[H1 | []] _] [[H2 | []] _]. congruence.
Defined.

(** ** The views and the patch store *)

(** X24. With an empty query the views do not look at the patch store:
    whatever patches are stored, the glossary view and the rule view are the
    same, entries and order; an edit never moves an entry in the unfiltered
    lists. *)
Theorem views_ignore_patches_without_query
    (toLowerCase : string -> string) (localeCompare : string -> string -> Z)
    (st : State) (p : gmap string (gmap string string)) :
  toLowerCase (sidebarSearch st) = "" ->
  getFilteredGlossary toLowerCase localeCompare (setPatches p st) =
    getFilteredGlossary toLowerCase localeCompare st /\
  getFilteredRules toLowerCase localeCompare (setPatches p st) =
    getFilteredRules toLowerCase localeCompare st.
Proof.
  intros Hq. unfold getFilteredGlossary, getFilteredRules. simpl.
  rewrite Hq. simpl. split; reflexivity.
Qed.

(** The glossary of [st_sorted], with and without its patch. *)
Lemma views_ignore_patches_without_query_witness :
  getFilteredGlossary asciiToLowerCase ordinalCompare (setPatches ∅ st_sorted) =
    getFilteredGlossary asciiToLowerCase ordinalCompare st_sorted /\
  getFilteredRules asciiToLowerCase ordinalCompare (setPatches ∅ st_sorted) =
    getFilteredRules asciiToLowerCase ordinalCompare st_sorted.
Proof.
  apply (views_ignore_patches_without_query asciiToLowerCase ordinalCompare st_sorted ∅).
  reflexivity.
Defined.

(** ** The properties above on the examples *)

(** A save for the glossary entry [g1] leaves the patch of the unknown
    morpheme [di] where it is. *)
Lemma savePatch_frame_witness :
  exists st',
    savePatch (openEditModal "glossary" entry_g1 st_past) [("pos", "verb")] = Ok st' /\
    patches st' !! "unknown:di" = patches st_past !! "unknown:di".
Proof.
  destruct (savePatch_frame st_past "glossary" entry_g1 [("pos", "verb")])
    as (st' & Hs & Hother & _).
  exists st'. split; [exact Hs|]. apply Hother. discriminate.
Defined.

Lemma savePatch_hasPatched_witness :
  exists st',
    savePatch (openEditModal "glossary" entry_g1 st_none) [("pos", "verb")] = Ok st' /\
    hasPatched st' "glossary" (Some "g1") = true.
Proof.
  destruct (savePatch_hasPatched st_none "glossary" entry_g1 [("pos", "verb")])
    as (st' & Hs & _ & Hflag).
  exists st'. split; [exact Hs|]. apply Hflag.
  exists "pos", "verb". split; [left; reflexivity | discriminate].
Defined.

Lemma savePatch_persists_witness :
  exists st',
    savePatch (openEditModal "glossary" entry_g1 st_none) [("pos", "verb")] = Ok st' /\
    storage st' = [patches st'].
Proof.
  destruct (savePatch_persists st_none "glossary" entry_g1 [("pos", "verb")])
    as (st' & Hs & _ & Hwrite).
  exists st'. split; [exact Hs|]. apply Hwrite.
  exists "pos", "verb". split; [left; reflexivity | discriminate].
Defined.

(** Without documents the glossary morpheme of [amadi] makes the call
    throw. *)
Lemma getMorphemeEntries_throws_iff_witness :
  getMorphemeEntries st_none (Some word_amadi) = TypeError.
Proof.
  destruct (getMorphemeEntries_throws_iff st_none word_amadi) as [_ H].
  apply H. exists morph_ama. split; [left; reflexivity|].
  left. split; reflexivity.
Defined.

(** An empty query on the three lines. *)
Lemma filterAlignments_edges_witness :
  exists res,
    filterAlignments asciiToLowerCase
      {| core := st_docs;
         alignments := Some {| AlignmentDocument.alignments := [line_1; line_2; line_3] |};
         searchQuery := "" |} = Ok res /\
    map line res = [line_1; line_2; line_3] /\
    map originalIndex res = [0; 1; 2]%nat.
Proof.
  destruct (filterAlignments_edges asciiToLowerCase
              {| core := st_docs;
                 alignments := Some {| AlignmentDocument.alignments := [line_1; line_2; line_3] |};
                 searchQuery := "" |}) as (_ & H & _).
  exact (H {| AlignmentDocument.alignments := [line_1; line_2; line_3] |} eq_refl eq_refl).
Defined.
